(** * The review fixture [examples/bad-example.py], embedded in Rocq

    The repository consists of one Python module whose functions exhibit the
    issues an automated review is meant to catch.  Each function the
    specification talks about is translated below: integers are [Z], Python
    dictionaries with string keys are [gmap string value], exceptions are an
    explicit result type, and module-level or operating-system state is
    threaded through explicitly. *)

From Stdlib Require Import ZArith Lia PrimFloat SpecFloat FloatOps.
From stdpp Require Import base option list gmap strings sorting lexico.

Local Open Scope Z_scope.

(** ** [complex_calculation]: the nested conditional

    The body is kept as a syntax tree so that its decision points can be
    counted; every [return] carries the line it occupies in the source. *)

Module Complexity.

Inductive var := X | Y | Z0.

Inductive expr :=
| EVar (v : var)
| EInt (n : Z)
| EAdd (a b : expr)
| ESub (a b : expr)
| EMul (a b : expr).

Inductive stmt :=
| SIf (lhs rhs : expr) (then_ else_ : stmt)   (* if lhs > rhs: .. else: .. *)
| SReturn (line : nat) (e : expr).

Record env := { ex : Z; ey : Z; ez : Z }.

Definition lookup_var (ρ : env) (v : var) : Z :=
  match v with X => ex ρ | Y => ey ρ | Z0 => ez ρ end.

Fixpoint eval (ρ : env) (e : expr) : Z :=
  match e with
  | EVar v => lookup_var ρ v
  | EInt n => n
  | EAdd a b => eval ρ a + eval ρ b
  | ESub a b => eval ρ a - eval ρ b
  | EMul a b => eval ρ a * eval ρ b
  end.

(** Running a statement yields the line of the [return] that fired and the
    value it returned. *)
Fixpoint exec (ρ : env) (s : stmt) : nat * Z :=
  match s with
  | SIf a b s1 s2 => if eval ρ a >? eval ρ b then exec ρ s1 else exec ρ s2
  | SReturn line e => (line, eval ρ e)
  end.

Fixpoint decision_points (s : stmt) : nat :=
  match s with
  | SIf _ _ s1 s2 => S (decision_points s1 + decision_points s2)
  | SReturn _ _ => 0
  end.

Definition x := EVar X.
Definition y := EVar Y.
Definition z := EVar Z0.

(** Lines 50-68 of the fixture. *)
Definition complex_calculation_body : stmt :=
  SIf x (EInt 0)
    (SIf y (EInt 0)
      (SIf z (EInt 0)
        (SIf x y
          (SIf y z
            (SIf x z
              (SReturn 56 (EMul (EMul x y) z))
              (SReturn 58 (EAdd (EAdd x y) z)))
            (SReturn 60 (ESub (ESub x y) z)))
          (SReturn 62 (EMul y z)))
        (SReturn 64 (EAdd x y)))
      (SReturn 66 x))
    (SReturn 68 (EInt 0)).

Definition run (a b c : Z) : nat * Z :=
  exec {| ex := a; ey := b; ez := c |} complex_calculation_body.

Definition complex_calculation (a b c : Z) : Z := snd (run a b c).

Definition return_line (a b c : Z) : nat := fst (run a b c).

(** The reference definition, as the specification spells it out. *)
Definition complex_calculation_ref (a b c : Z) : Z :=
  if a >? 0 then
    if b >? 0 then
      if c >? 0 then
        if a >? b then
          if b >? c then
            if a >? c then a * b * c else a + b + c
          else a - b - c
        else b * c
      else a + b
    else a
  else 0.

End Complexity.

(** ** Python values, exceptions and the operators the fixture applies

    Dictionary fields hold scalars: [None], booleans, unbounded integers,
    binary64 floats (Rocq's primitive floats, the same IEEE 754 format as
    Python's [float]) and strings. *)

Module Py.

Inductive exn :=
| KeyError (key : string)
| NameError (name : string)
| TypeError
| OverflowError
| FileNotFoundError (message : string)
| JSONDecodeError
| UnicodeDecodeError
| OSError.

Inductive result (A : Type) :=
| Returns (a : A)
| Raises (e : exn).
Arguments Returns {A} a.
Arguments Raises {A} e.

#[export] Instance result_ret : MRet result := @Returns.
#[export] Instance result_bind : MBind result := λ A B f r,
  match r with
  | Returns a => f a
  | Raises e => Raises e
  end.

Inductive value :=
| VNone
| VBool (b : bool)
| VInt (n : Z)
| VFloat (f : PrimFloat.float)
| VStr (s : string).

(** A dictionary whose keys are strings. *)
Abbreviation record := (gmap string value).

(** [d[key]] *)
Definition subscript (d : record) (key : string) : result value :=
  match d !! key with
  | Some v => Returns v
  | None => Raises (KeyError key)
  end.

(** [bool] is a subtype of [int]: [True] counts as 1, [False] as 0. *)
Definition as_int (v : value) : option Z :=
  match v with
  | VInt n => Some n
  | VBool b => Some (if b then 1 else 0)
  | _ => None
  end.

(** [float(n)]: round to nearest, ties to even; integers beyond the
    binary64 range raise [OverflowError]. *)
Definition float_of_int (n : Z) : result PrimFloat.float :=
  let f := SF2Prim (binary_normalize prec emax n 0 false) in
  if PrimFloat.is_infinity f then Raises OverflowError else Returns f.

(** [n == f] compares the integer with the exact value of the float. *)
Definition int_eq_float (n : Z) (f : PrimFloat.float) : bool :=
  match Prim2SF f with
  | S754_zero _ => n =? 0
  | S754_finite s m e =>
      let mz := if s then Z.neg m else Z.pos m in
      if 0 <=? e then n =? mz * 2 ^ e else n * 2 ^ (- e) =? mz
  | _ => false
  end.

(** [a == b] on scalars; values of unrelated types compare unequal. *)
Definition py_eq (a b : value) : bool :=
  match a, b with
  | VNone, VNone => true
  | VStr s, VStr t => String.eqb s t
  | VFloat f, VFloat g => PrimFloat.eqb f g
  | VFloat f, _ =>
      match as_int b with Some n => int_eq_float n f | None => false end
  | _, VFloat g =>
      match as_int a with Some n => int_eq_float n g | None => false end
  | _, _ =>
      match as_int a, as_int b with
      | Some m, Some n => m =? n
      | _, _ => false
      end
  end.

(** [a + b] *)
Definition py_add (a b : value) : result value :=
  match a, b with
  | VStr s, VStr t => Returns (VStr (s +:+ t))
  | VFloat f, VFloat g => Returns (VFloat (PrimFloat.add f g))
  | VFloat f, _ =>
      match as_int b with
      | Some n => g ← float_of_int n; Returns (VFloat (PrimFloat.add f g))
      | None => Raises TypeError
      end
  | _, VFloat g =>
      match as_int a with
      | Some n => f ← float_of_int n; Returns (VFloat (PrimFloat.add f g))
      | None => Raises TypeError
      end
  | _, _ =>
      match as_int a, as_int b with
      | Some m, Some n => Returns (VInt (m + n))
      | _, _ => Raises TypeError
      end
  end.

(** [a * c] for a float literal [c]. *)
Definition mul_float (a : value) (c : PrimFloat.float) : result value :=
  match a with
  | VFloat f => Returns (VFloat (PrimFloat.mul f c))
  | _ =>
      match as_int a with
      | Some n => f ← float_of_int n; Returns (VFloat (PrimFloat.mul f c))
      | None => Raises TypeError
      end
  end.

(** The exact value of a finite float [(-1)^s * m * 2^e] against an integer:
    [Lt], [Eq] or [Gt] as the integer is below, at or above it. *)
Definition int_cmp_finite (n : Z) (s : bool) (m : positive) (e : Z) : comparison :=
  let mz := if s then Z.neg m else Z.pos m in
  if 0 <=? e then n ?= mz * 2 ^ e else n * 2 ^ (- e) ?= mz.

(** [n < f], computed on exact values; a comparison with NaN is false. *)
Definition int_lt_float (n : Z) (f : PrimFloat.float) : bool :=
  match Prim2SF f with
  | S754_zero _ => n <? 0
  | S754_finite s m e => match int_cmp_finite n s m e with Lt => true | _ => false end
  | S754_infinity s => negb s
  | S754_nan => false
  end.

(** [a > n] for an integer literal [n]. *)
Definition gt_int (a : value) (n : Z) : result bool :=
  match a with
  | VFloat f => Returns (int_lt_float n f)
  | _ =>
      match as_int a with
      | Some m => Returns (m >? n)
      | None => Raises TypeError
      end
  end.

(** [a < c] for a float literal [c]. *)
Definition lt_float (a : value) (c : PrimFloat.float) : result bool :=
  match a with
  | VFloat f => Returns (PrimFloat.ltb f c)
  | _ =>
      match as_int a with
      | Some m => Returns (int_lt_float m c)
      | None => Raises TypeError
      end
  end.

(** [a / c] for a float literal [c] other than zero; the quotient is a float. *)
Definition div_float (a : value) (c : PrimFloat.float) : result PrimFloat.float :=
  match a with
  | VFloat f => Returns (PrimFloat.div f c)
  | _ =>
      match as_int a with
      | Some n => f ← float_of_int n; Returns (PrimFloat.div f c)
      | None => Raises TypeError
      end
  end.

End Py.

(** ** The functions of the fixture that work on dictionaries and lists *)

Module Fixture.
Import Py.

(** *** [Calculate_Total] (lines 11-16) *)

(** The [for] loop, started with the accumulator [t]. *)
Fixpoint Calculate_Total_from (t : value) (items : list record) : result value :=
  match items with
  | [] => Returns t
  | i :: rest =>
      price ← subscript i "price";
      t' ← py_add t price;
      Calculate_Total_from t' rest
  end.

Definition Calculate_Total (items : list record) : result value :=
  Calculate_Total_from (VInt 0) items.

(** *** [process_data] and [filter_data] (lines 19-45) *)

(** The literals [1.1] and [1.2] denote the nearest binary64 values. *)
Definition lit_1_1 : PrimFloat.float := 0x1.199999999999ap+0%float.
Definition lit_1_2 : PrimFloat.float := 0x1.3333333333333p+0%float.

Fixpoint process_data_from (results data : list record) : result (list record) :=
  match data with
  | [] => Returns results
  | item :: rest =>
      status ← subscript item "status";
      if py_eq status (VStr "active") then
        id ← subscript item "id";
        name ← subscript item "name";
        v ← subscript item "value";
        scaled ← mul_float v lit_1_1;
        let processed_item : record :=
          list_to_map [("id", id); ("name", name); ("value", scaled)] in
        process_data_from (results ++ [processed_item]) rest
      else process_data_from results rest
  end.

Definition process_data (data : list record) : result (list record) :=
  process_data_from [] data.

Fixpoint filter_data_from (filtered data : list record) : result (list record) :=
  match data with
  | [] => Returns filtered
  | item :: rest =>
      status ← subscript item "status";
      if py_eq status (VStr "pending") then
        id ← subscript item "id";
        name ← subscript item "name";
        v ← subscript item "value";
        scaled ← mul_float v lit_1_2;
        let transformed_item : record :=
          list_to_map [("id", id); ("name", name); ("value", scaled)] in
        filter_data_from (filtered ++ [transformed_item]) rest
      else filter_data_from filtered rest
  end.

Definition filter_data (data : list record) : result (list record) :=
  filter_data_from [] data.

(** The common shape of the two functions, with the two literals they
    differ in taken as parameters. *)
Fixpoint select_and_scale_from (status_lit : string) (multiplier : PrimFloat.float)
    (acc data : list record) : result (list record) :=
  match data with
  | [] => Returns acc
  | item :: rest =>
      status ← subscript item "status";
      if py_eq status (VStr status_lit) then
        id ← subscript item "id";
        name ← subscript item "name";
        v ← subscript item "value";
        scaled ← mul_float v multiplier;
        let new_item : record :=
          list_to_map [("id", id); ("name", name); ("value", scaled)] in
        select_and_scale_from status_lit multiplier (acc ++ [new_item]) rest
      else select_and_scale_from status_lit multiplier acc rest
  end.

Definition select_and_scale (status_lit : string) (multiplier : PrimFloat.float)
    (data : list record) : result (list record) :=
  select_and_scale_from status_lit multiplier [] data.

(** *** [increment_counter] (lines 71-77)

    The module namespace maps global names to values; the function reads
    and rebinds the one name it declares [global]. *)
Definition increment_counter (globals : gmap string value)
    : result value * gmap string value :=
  match globals !! "global_counter" with
  | None => (Raises (NameError "global_counter"), globals)
  | Some c =>
      match py_add c (VInt 1) with
      | Raises e => (Raises e, globals)
      | Returns c' => (Returns c', <["global_counter" := c']> globals)
      end
  end.

(** The namespace right after the module body has run. *)
Definition initial_globals : gmap string value := {[ "global_counter" := VInt 0 ]}.

(** *** [user_manager] (lines 98-115) *)

Record user_manager := { users : list record }.

Definition init : user_manager := {| users := [] |}.

Definition add_usr (self : user_manager) (user : record) : user_manager :=
  {| users := users self ++ [user] |}.

(** The loop of [get_user_by_id]; [None] stands for Python's [None]. *)
Fixpoint find_user (us : list record) (id : value) : result (option record) :=
  match us with
  | [] => Returns None
  | u :: rest =>
      uid ← subscript u "id";
      if py_eq uid id then Returns (Some u) else find_user rest id
  end.

Definition get_user_by_id (self : user_manager) (id : value) : result (option record) :=
  find_user (users self) id.

(** *** Vocabulary of the statements about these functions *)

(** The mathematical sum of a list of integers. *)
Definition sum_Z (ns : list Z) : Z := foldr Z.add 0 ns.

(** [item['price']] is present and holds [v]. *)
Definition has_price (item : record) (v : value) : Prop := item !! "price" = Some v.

(** [u['id']] is present and compares equal to [id]. *)
Definition has_id (u : record) (id : value) : Prop :=
  ∃ v, u !! "id" = Some v ∧ py_eq v id = true.

(** [u] is stored, has the id, and no user stored before it has. *)
Definition first_with_id (us : list record) (id : value) (u : record) : Prop :=
  ∃ i, us !! i = Some u ∧ has_id u id ∧
       ∀ j w, (j < i)%nat → us !! j = Some w → ¬ has_id w id.

(** What the specification says of [get_user_by_id]: the call returns the
    first stored user with the id, and returns [None] exactly when no stored
    user has it. *)
Definition returns_first_match (self : user_manager) (id : value) : Prop :=
  (∀ u, get_user_by_id self id = Returns (Some u) ↔ first_with_id (users self) id u) ∧
  (get_user_by_id self id = Returns None ↔ ∀ u, u ∈ users self → ¬ has_id u id).

(** *** [calculate_shipping_cost] (lines 88-95) *)

(** The literals [2.5], [1.8] and [5.0]; [1.8] denotes the nearest binary64
    value. *)
Definition lit_2_5 : PrimFloat.float := 0x1.4p+1%float.
Definition lit_1_8 : PrimFloat.float := 0x1.ccccccccccccdp+0%float.
Definition lit_5_0 : PrimFloat.float := 0x1.4p+2%float.

Definition calculate_shipping_cost (weight : value) : result value :=
  heavy ← gt_int weight 10;
  if (heavy : bool) then mul_float weight lit_2_5
  else
    medium ← gt_int weight 5;
    if (medium : bool) then mul_float weight lit_1_8
    else Returns (VFloat lit_5_0).

(** *** [calculate_tax_amount] (lines 118-134) *)

(** [MINIMUM_TAXABLE_AMOUNT = 0.01], and the literals [0.0] and [100.0]. *)
Definition MINIMUM_TAXABLE_AMOUNT : PrimFloat.float := 0x1.47ae147ae147bp-7%float.
Definition lit_0_0 : PrimFloat.float := 0%float.
Definition lit_100_0 : PrimFloat.float := 0x1.9p+6%float.

Definition calculate_tax_amount (price tax_rate : value) : result value :=
  below ← lt_float price MINIMUM_TAXABLE_AMOUNT;
  if (below : bool) then Returns (VFloat lit_0_0)
  else
    rate ← div_float tax_rate lit_100_0;
    mul_float price rate.

(** *** Further vocabulary *)

(** [item['status']] is present and equals the string [status_lit]. *)
Definition is_selected (status_lit : string) (item : record) : bool :=
  match item !! "status" with
  | Some v => py_eq v (VStr status_lit)
  | None => false
  end.

(** The integer price of an item, 0 when it has none. *)
Definition int_price (item : record) : Z :=
  match item !! "price" with
  | Some (VInt n) => n
  | _ => 0
  end.

(** [item['price']] is an [int] of value [n]; a [bool] counts as the [int]
    it is. *)
Definition has_int_price (item : record) (n : Z) : Prop :=
  ∃ p, has_price item p ∧ as_int p = Some n.

(** [item['price']] taken as a float is [f]: a [float] price is [f] itself,
    an [int] price converts to [f] without leaving the binary64 range. *)
Definition price_as_float (item : record) (f : PrimFloat.float) : Prop :=
  ∃ p, has_price item p ∧
       (p = VFloat f ∨ ∃ n, as_int p = Some n ∧ float_of_int n = Returns f).

(** A value is an [int] or a [float], and not a [bool]. *)
Definition is_number (v : value) : Prop :=
  (∃ n, v = VInt n) ∨ (∃ f, v = VFloat f).

(** The module namespace after a call to [increment_counter]. *)
Definition after_increment (globals : gmap string value) : gmap string value :=
  (increment_counter globals).2.

(** [r] is the dictionary the loops build from [item]: its 'id' and 'name'
    copied and its 'value' multiplied by [multiplier]. *)
Definition scaled_copy (multiplier : PrimFloat.float) (item r : record) : Prop :=
  ∃ id name v scaled,
    item !! "id" = Some id ∧ item !! "name" = Some name ∧ item !! "value" = Some v ∧
    mul_float v multiplier = Returns scaled ∧
    r = list_to_map [("id", id); ("name", name); ("value", scaled)].

End Fixture.

(** ** File handling: [risky_function] and [read_config_file]

    The operating system is a state: the handles that are currently open,
    the next free descriptor and the log of calls made so far.  What the file
    system answers (whether a path opens, what reading it yields, how its
    text parses) is a parameter. *)

Module Files.
Import Py.

Inductive encoding := LocaleDefault | Utf8.

Record handle := { fd : nat; path : string; enc : encoding }.

Inductive event :=
| Opened (h : handle)
| ReadFrom (h : handle)
| Closed (h : handle).

Record os_state := {
  open_files : list handle;
  next_fd : nat;
  trace : list event
}.

#[export] Instance encoding_eq_dec : EqDecision encoding.
Proof. solve_decision. Defined.
#[export] Instance handle_eq_dec : EqDecision handle.
Proof. solve_decision. Defined.

(** The answers of the file system; [J] is the type of decoded JSON
    documents. *)
Record filesystem (J : Type) := {
  fs_open : string → option exn;               (* [None]: the path opens *)
  fs_read : encoding → string → result string; (* the text, or the error of [read] *)
  json_loads : string → result J
}.
Arguments fs_open {J} _ _.
Arguments fs_read {J} _ _ _.
Arguments json_loads {J} _ _.

(** Computations that may raise and that change the state either way. *)
Definition io (A : Type) : Type := os_state → result A * os_state.

#[export] Instance io_ret : MRet io := λ A a s, (Returns a, s).
#[export] Instance io_bind : MBind io := λ A B f m s,
  match m s with
  | (Returns a, s') => f a s'
  | (Raises e, s') => (Raises e, s')
  end.

Definition raise {A} (e : exn) : io A := λ s, (Raises e, s).

Definition lift {A} (r : result A) : io A := λ s, (r, s).

Definition log (ev : event) (s : os_state) : os_state :=
  {| open_files := open_files s; next_fd := next_fd s; trace := trace s ++ [ev] |}.

Section with_filesystem.
Context {J : Type} (fs : filesystem J).

(** [open(filename, 'r', ...)] *)
Definition py_open (e : encoding) (filename : string) : io handle := λ s,
  match fs_open fs filename with
  | Some err => (Raises err, s)
  | None =>
      let h := {| fd := next_fd s; path := filename; enc := e |} in
      (Returns h,
       {| open_files := h :: open_files s;
          next_fd := S (next_fd s);
          trace := trace s ++ [Opened h] |})
  end.

(** [file.read()] *)
Definition file_read (h : handle) : io string := λ s,
  (fs_read fs (enc h) (path h), log (ReadFrom h) s).

(** [file.close()] *)
Definition file_close (h : handle) : io unit := λ s,
  (Returns (),
   {| open_files := filter (λ h', h' ≠ h) (open_files s);
      next_fd := next_fd s;
      trace := trace s ++ [Closed h] |}).

(** [json.load(file)] reads the whole file, then decodes the text. *)
Definition json_load (h : handle) : io J :=
  content ← file_read h; lift (json_loads fs content).

(** [with open(...) as file: body]: the handle is closed when the body
    is left, whether it returned or raised. *)
Definition with_open {A} (e : encoding) (filename : string)
    (body : handle → io A) : io A := λ s,
  match py_open e filename s with
  | (Raises err, s1) => (Raises err, s1)
  | (Returns h, s1) =>
      let '(r, s2) := body h s1 in
      (r, snd (file_close h s2))
  end.

(** [try: body except ...]: [handler] selects the clause that matches
    the exception, if any. *)
Definition try_except {A} (body : io A) (handler : exn → option (io A)) : io A := λ s,
  match body s with
  | (Raises err, s1) =>
      match handler err with
      | Some clause => clause s1
      | None => (Raises err, s1)
      end
  | (Returns a, s1) => (Returns a, s1)
  end.

(** Lines 80-85. *)
Definition risky_function (filename : string) : io string :=
  file ← py_open LocaleDefault filename;
  content ← file_read file;
  _ ← file_close file;
  mret content.

(** Lines 137-157.  The second clause calls [json.JSONDecodeError] with a
    single argument; the class requires three, so building the exception
    raises [TypeError]. *)
Definition read_config_file (filename : string) : io J :=
  try_except
    (with_open Utf8 filename (λ file, json_load file))
    (λ err,
       match err with
       | FileNotFoundError _ =>
           Some (raise (FileNotFoundError
                          ("Configuration file not found: " +:+ filename)))
       | JSONDecodeError => Some (raise TypeError)
       | _ => None
       end).

End with_filesystem.

(** Descriptors are handed out in increasing order, so those in use lie
    below the next free one. *)
Definition well_formed (s : os_state) : Prop :=
  Forall (λ h, (fd h < next_fd s)%nat) (open_files s).

Definition initial_state : os_state :=
  {| open_files := []; next_fd := 3; trace := [] |}.

(** A file that is UTF-8 text but not JSON, on a system whose locale
    encoding cannot decode it. *)
Definition sample_fs : filesystem unit :=
  {| fs_open := λ filename, if String.eqb filename "config.json" then None
                            else Some (FileNotFoundError filename);
     fs_read := λ e _, match e with
                       | LocaleDefault => Raises UnicodeDecodeError
                       | Utf8 => Returns "{"
                       end;
     json_loads := λ _, Raises JSONDecodeError |}.

(** The exceptions no [except] clause of [read_config_file] catches. *)
Definition passes_through (e : exn) : Prop :=
  match e with
  | FileNotFoundError _ | JSONDecodeError => False
  | _ => True
  end.

(** A second file system to run the functions on: one readable JSON file,
    one file that does not decode as text, one that may not be opened. *)
Definition sample_tree : filesystem nat :=
  {| fs_open := λ filename,
       if String.eqb filename "config.json" then None
       else if String.eqb filename "broken.json" then None
       else if String.eqb filename "secret.json" then Some OSError
       else Some (FileNotFoundError filename);
     fs_read := λ _ filename,
       if String.eqb filename "broken.json" then Raises UnicodeDecodeError
       else Returns "{}";
     json_loads := λ text, Returns (String.length text) |}.

End Files.

(** ** The analysis core the specification outlines

    The repository ships the fixture only; the engine that would consume it
    is described in the specification and nowhere in the sources.  Its data
    model, the evaluation of the rules and the reporter are laid down here
    from that description. *)

Module Engine.

(** Modelled from the spec: the severity attribute of a Finding (§3); the
    text names low-severity findings and a "warning" level, no source
    declares the type. *)
Inductive severity := Low | Warning | Error.

Definition severity_rank (s : severity) : nat :=
  match s with Low => 0 | Warning => 1 | Error => 2 end.

(** Modelled from the spec: the Finding record of §3 (rule id, severity,
    file path, line number, message), absent from the sources. *)
Record Finding := {
  rule_id : string;
  level : severity;
  file : string;
  line : nat;
  message : string
}.

(** Modelled from the spec: the SourceUnit of §3 (path and numbered
    lines), absent from the sources. *)
Record SourceUnit := {
  unit_path : string;
  unit_lines : list (nat * string)
}.

(** Modelled from the spec: the SyntacticElement of §3, absent from the
    sources. *)
Record SyntacticElement := {
  name : string;
  start_line : nat;
  end_line : nat;
  parameters : list string;
  depth : nat
}.

(** Modelled from the spec: a rule is "an independent, pure function from
    parsed structure to zero or more Findings" with the capability
    [evaluate(SourceUnit, SyntacticElement[]) → Finding[]] (§4.2); no rule
    is implemented in the sources. *)
Definition Rule : Type := SourceUnit → list SyntacticElement → list Finding.

(** Modelled from the spec: the missing rule engine evaluates every
    registered rule, in registration order, on a parsed unit and collects
    what they emit (§4.2). *)
Definition evaluate (rules : list Rule) (u : SourceUnit)
    (elements : list SyntacticElement) : list Finding :=
  r ← rules; r u elements.

(** Modelled from the spec: the Evaluate stage of the missing pipeline
    over all parsed units of a run (§4.3, §5). *)
Definition evaluate_all (rules : list Rule)
    (parsed : list (SourceUnit * list SyntacticElement)) : list Finding :=
  p ← parsed; evaluate rules p.1 p.2.

(** Code points of a string, compared lexicographically. *)
Definition codes (s : string) : list N :=
  Ascii.N_of_ascii <$> String.list_ascii_of_string s.

(** Modelled from the spec: the missing reporter sorts "by (file, line,
    rule id)" (§4.3); message and severity follow so that the sort is
    deterministic (§8). *)
Definition sort_key (f : Finding) : list N * (nat * (list N * (list N * nat))) :=
  (codes (file f), (line f, (codes (rule_id f), (codes (message f), severity_rank (level f))))).

Definition finding_le (f g : Finding) : Prop :=
  lexico (sort_key f) (sort_key g) ∨ sort_key f = sort_key g.

#[export] Instance finding_le_dec (f g : Finding) : Decision (finding_le f g).
Proof.
  refine (match trichotomyT lexico (sort_key f) (sort_key g) with
          | inleft (left H) => left (or_introl H)
          | inleft (right H) => left (or_intror H)
          | inright H => right _
          end).
  intros [H'|H'].
  - exact (irreflexivity lexico _ (transitivity H H')).
  - rewrite H' in H. exact (irreflexivity lexico _ H).
Defined.

(** Modelled from the spec: what makes two findings duplicates, "identical
    (rule id, file, line, message)" (§3, §8). *)
Definition identity (f : Finding) : string * string * nat * string :=
  (rule_id f, file f, line f, message f).

(** Modelled from the spec: the missing reporter retains one finding per
    identity (§3); this keeps the first of each in the given sequence. *)
Fixpoint dedupe (fs : list Finding) : list Finding :=
  match fs with
  | [] => []
  | f :: rest => f :: filter (λ g, identity g ≠ identity f) (dedupe rest)
  end.

(** Modelled from the spec: the Aggregate stage of the missing reporter,
    "merge Findings from all rules, deduplicate exact repeats, sort"
    (§4.3).  Sorting comes first, so that of several findings with one
    identity the survivor is the one that sorts first, whatever order
    they arrived in. *)
Definition aggregate (fs : list Finding) : list Finding :=
  dedupe (merge_sort finding_le fs).

(** Modelled from the spec: the Report of one run of the missing pipeline,
    Evaluate then Aggregate (§4.3). *)
Definition report (rules : list Rule)
    (parsed : list (SourceUnit * list SyntacticElement)) : list Finding :=
  aggregate (evaluate_all rules parsed).

(** The order on file paths, and the (file, line) order of the Report. *)
Definition file_lt (a b : string) : Prop := lexico (codes a) (codes b).

Definition file_line_le (f g : Finding) : Prop :=
  file_lt (file f) (file g) ∨ (file f = file g ∧ (line f ≤ line g)%nat).

(** Two rules to run the engine on: one that reports a long line, one that
    reports names and repeats itself. *)
Definition sample_line_rule : Rule := λ u _,
  [ {| rule_id := "line-length"; level := Warning; file := unit_path u;
       line := 8; message := "line too long" |} ].

Definition sample_naming_rule : Rule := λ u _,
  [ {| rule_id := "naming"; level := Warning; file := unit_path u;
       line := 98; message := "class name" |};
    {| rule_id := "naming"; level := Warning; file := unit_path u;
       line := 11; message := "function name" |};
    {| rule_id := "naming"; level := Warning; file := unit_path u;
       line := 11; message := "function name" |} ].

End Engine.

(** * Properties *)

(** ** The nested conditional *)

Section complexity_facts.
Import Complexity.

Example complex_calculation_sample :
  complex_calculation 3 2 1 = 6 ∧ complex_calculation 2 3 1 = 3 ∧
  complex_calculation 3 1 2 = 0 ∧ complex_calculation 1 1 (-4) = 2 ∧
  complex_calculation 5 0 7 = 5 ∧ complex_calculation (-1) 4 4 = 0.
Proof. repeat split; reflexivity. Qed.

Lemma gtb_spec (a b : Z) : (a >? b) = bool_decide (a > b).
Proof.
  rewrite Z.gtb_ltb. case_bool_decide; [apply Z.ltb_lt | apply Z.ltb_ge]; lia.
Qed.

(** C1: for all integers x, y, z the function denoted by the body of
    complex_calculation agrees with the six-level nested conditional of the
    specification, and the body holds exactly six decision points. *)
Theorem complex_calculation_is_nested_conditional :
  (∀ a b c : Z, complex_calculation a b c = complex_calculation_ref a b c) ∧
  decision_points complex_calculation_body = 6%nat.
Proof.
  split; [|reflexivity].
  intros a b c. unfold complex_calculation, run, complex_calculation_ref.
  cbn [exec complex_calculation_body eval lookup_var x y z ex ey ez].
  repeat match goal with |- context [?u >? ?v] => destruct (u >? v) end;
    reflexivity.
Qed.

(** C7: the return on line 58 (x + y + z) is dead code: whenever the five
    outer tests hold the sixth, x > z, holds as well, and no input makes
    complex_calculation leave through that return. *)
Theorem complex_calculation_sum_branch_unreachable (a b c : Z) :
  (a > 0 → b > 0 → c > 0 → a > b → b > c → a > c) ∧
  return_line a b c ≠ 58%nat.
Proof.
  split; [lia|].
  unfold return_line, run.
  cbn [exec complex_calculation_body eval lookup_var x y z ex ey ez].
  rewrite !gtb_spec.
  repeat case_bool_decide; cbn; first [discriminate | lia].
Qed.

Lemma complex_calculation_sum_branch_unreachable_witness :
  3 > 1 ∧ return_line 3 2 1 ≠ 58%nat.
Proof.
  destruct (complex_calculation_sum_branch_unreachable 3 2 1) as [Hgt Hline].
  split; [apply Hgt; lia | exact Hline].
Defined.

End complexity_facts.

(** ** Dictionaries and lists *)

Section fixture_facts.
Import Py Fixture.

Example Calculate_Total_sample :
  Calculate_Total [ {[ "price" := VInt 3 ]}; {[ "price" := VInt 4; "sku" := VStr "a" ]} ]
  = Returns (VInt 7).
Proof. reflexivity. Qed.

Example Calculate_Total_missing_price :
  Calculate_Total [ {[ "price" := VInt 3 ]}; ∅ ] = Raises (KeyError "price").
Proof. reflexivity. Qed.

Lemma Calculate_Total_from_ints (items : list record) (ns : list Z) (t : Z) :
  Forall2 (λ i n, has_price i (VInt n)) items ns →
  Calculate_Total_from (VInt t) items = Returns (VInt (t + sum_Z ns)).
Proof.
  intros Hall. revert t.
  induction Hall as [|i n items ns Hi _ IH]; intros t; cbn.
  - by rewrite Z.add_0_r.
  - unfold subscript. rewrite Hi. cbn. rewrite IH. do 2 f_equal.
    unfold sum_Z. cbn. lia.
Qed.

Lemma py_add_int_price (t n : Z) (p : value) :
  as_int p = Some n → py_add (VInt t) p = Returns (VInt (t + n)).
Proof.
  destruct p as [|b|m|f|s]; cbn; intros [= <-]; reflexivity.
Qed.

Lemma py_add_float_price (t f : PrimFloat.float) (p : value) :
  p = VFloat f ∨ (∃ n, as_int p = Some n ∧ float_of_int n = Returns f) →
  py_add (VFloat t) p = Returns (VFloat (t + f)%float).
Proof.
  intros [->|(n & Hn & Hf)]; [reflexivity|].
  destruct p as [|b|m|g|s]; cbn [as_int] in Hn; try done;
    injection Hn as <-; cbn [py_add as_int]; by rewrite Hf.
Qed.

(** While only ints have been met the accumulator is their exact sum. *)
Lemma Calculate_Total_from_int_prices (pre rest : list record) (ns : list Z) (t : Z) :
  Forall2 has_int_price pre ns →
  Calculate_Total_from (VInt t) (pre ++ rest)
  = Calculate_Total_from (VInt (t + sum_Z ns)) rest.
Proof.
  intros Hall. revert t.
  induction Hall as [|i n pre ns (p & Hp & Hn) _ IH]; intros t.
  - cbn. by rewrite Z.add_0_r.
  - cbn [app Calculate_Total_from]. unfold subscript. rewrite Hp.
    cbn [mbind result_bind].
    rewrite (py_add_int_price t n p Hn). cbn [mbind result_bind].
    rewrite IH. do 2 f_equal. unfold sum_Z. cbn. lia.
Qed.

(** Once the accumulator is a float, every further price is added to it in
    binary64. *)
Lemma Calculate_Total_from_float_prices (items : list record)
    (fs : list PrimFloat.float) (t : PrimFloat.float) :
  Forall2 price_as_float items fs →
  Calculate_Total_from (VFloat t) items = Returns (VFloat (foldl PrimFloat.add t fs)).
Proof.
  intros Hall. revert t.
  induction Hall as [|i f items fs (p & Hp & Hf) _ IH]; intros t; [done|].
  cbn [Calculate_Total_from foldl]. unfold subscript. rewrite Hp.
  cbn [mbind result_bind].
  rewrite (py_add_float_price t f p Hf). cbn [mbind result_bind].
  apply IH.
Qed.

(** C8: on the empty list Calculate_Total returns 0; on a list whose items
    all carry an int price it returns their exact sum; on a list of int and
    float prices in which a float occurs it returns the sum accumulated in
    list order - the exact sum of the ints before the first float, converted
    to a float, then one binary64 addition per price - provided the int sum
    and every later int convert to a float in range. *)
Theorem Calculate_Total_returns_sum :
  Calculate_Total [] = Returns (VInt 0) ∧
  (∀ (items : list record) (ns : list Z),
     Forall2 has_int_price items ns →
     Calculate_Total items = Returns (VInt (sum_Z ns))) ∧
  (∀ (pre post : list record) (first : record) (ns : list Z)
     (p0 f0 : PrimFloat.float) (fs : list PrimFloat.float),
     Forall2 has_int_price pre ns →
     has_price first (VFloat p0) →
     Forall2 price_as_float post fs →
     float_of_int (sum_Z ns) = Returns f0 →
     Calculate_Total (pre ++ first :: post)
     = Returns (VFloat (foldl PrimFloat.add (f0 + p0)%float fs))).
Proof.
  split; [reflexivity|]. split.
  - intros items ns Hall. unfold Calculate_Total.
    rewrite <-(app_nil_r items).
    by rewrite (Calculate_Total_from_int_prices items [] ns 0 Hall).
  - intros pre post first ns p0 f0 fs Hpre Hfirst Hpost Hf0. unfold Calculate_Total.
    rewrite (Calculate_Total_from_int_prices pre (first :: post) ns 0 Hpre).
    cbn [Calculate_Total_from]. unfold subscript. rewrite Hfirst.
    cbn [mbind result_bind py_add as_int]. rewrite Z.add_0_l, Hf0.
    cbn [mbind result_bind].
    apply (Calculate_Total_from_float_prices post fs _ Hpost).
Qed.

Lemma Calculate_Total_returns_sum_witness :
  Calculate_Total [ {[ "price" := VInt 3 ]}; {[ "price" := VInt 4 ]} ]
    = Returns (VInt (sum_Z [3; 4])) ∧
  Calculate_Total
    ([ {[ "price" := VInt 1 ]} ] ++ {[ "price" := VFloat 0.5%float ]}
       :: [ {[ "price" := VInt 2 ]}; {[ "price" := VFloat 0.25%float ]} ])
    = Returns (VFloat (foldl PrimFloat.add (1 + 0.5)%float [2%float; 0.25%float])).
Proof.
  destruct Calculate_Total_returns_sum as (_ & Hints & Hmixed). split.
  - apply Hints. repeat constructor; eexists; split; reflexivity.
  - apply (Hmixed _ _ _ [1]); [| reflexivity | | vm_compute; reflexivity].
    + repeat constructor. eexists; split; reflexivity.
    + repeat constructor.
      * eexists. split; [reflexivity|]. right. exists 2.
        split; [reflexivity | vm_compute; reflexivity].
      * eexists. split; [reflexivity|]. by left.
Defined.

(** As worded for every list of numeric prices, C8 fails where an int is too
    large for a float: both prices below are numbers, yet adding 10^400 to
    the float accumulator raises OverflowError and nothing is returned. *)
Lemma Calculate_Total_overflows_on_mixed_prices :
  let items : list record :=
    [ {[ "price" := VFloat 0.5%float ]}; {[ "price" := VInt (10 ^ 400) ]} ] in
  Forall (λ i, ∃ p, has_price i p ∧ is_number p) items ∧
  Calculate_Total items = Raises OverflowError ∧
  ¬ ∃ v, Calculate_Total items = Returns v.
Proof.
  assert (Calculate_Total
            [ {[ "price" := VFloat 0.5%float ]}; {[ "price" := VInt (10 ^ 400) ]} ]
          = Raises OverflowError) as Hraise by (vm_compute; reflexivity).
  cbn zeta. split_and!.
  - repeat constructor.
    + exists (VFloat 0.5%float). split; [reflexivity|]. right. by eexists.
    + exists (VInt (10 ^ 400)). split; [reflexivity|]. left. by eexists.
  - exact Hraise.
  - intros [v Hv]. rewrite Hraise in Hv. discriminate.
Qed.

Example process_data_sample :
  process_data
    [ {[ "status" := VStr "active"; "id" := VInt 1; "name" := VStr "a"; "value" := VInt 10 ]};
      {[ "status" := VStr "pending"; "id" := VInt 2; "name" := VStr "b"; "value" := VInt 10 ]} ]
  = Returns [ {[ "id" := VInt 1; "name" := VStr "a"; "value" := VFloat 11%float ]} ].
Proof. vm_compute. reflexivity. Qed.

Example filter_data_sample :
  filter_data
    [ {[ "status" := VStr "active"; "id" := VInt 1; "name" := VStr "a"; "value" := VInt 10 ]};
      {[ "status" := VStr "pending"; "id" := VInt 2; "name" := VStr "b"; "value" := VInt 10 ]} ]
  = Returns [ {[ "id" := VInt 2; "name" := VStr "b"; "value" := VFloat 12%float ]} ].
Proof. vm_compute. reflexivity. Qed.

Example filter_data_missing_field :
  filter_data [ {[ "status" := VStr "pending"; "id" := VInt 2; "value" := VInt 10 ]} ]
  = Raises (KeyError "name").
Proof. reflexivity. Qed.

(** One statement of a loop body: the call either raises, which ends both
    loops alike, or hands its value on. *)
Ltac step_call :=
  match goal with
  | |- context [mbind _ ?call] =>
      destruct call; [cbn [mbind result_bind] | reflexivity]
  end.

Lemma process_data_from_shape (acc data : list record) :
  select_and_scale_from "active" lit_1_1 acc data = process_data_from acc data.
Proof.
  revert acc. induction data as [|item rest IH]; intros acc; [reflexivity|].
  cbn [select_and_scale_from process_data_from].
  step_call. case (py_eq _ _); [|apply IH].
  do 4 step_call. apply IH.
Qed.

Lemma filter_data_from_shape (acc data : list record) :
  select_and_scale_from "pending" lit_1_2 acc data = filter_data_from acc data.
Proof.
  revert acc. induction data as [|item rest IH]; intros acc; [reflexivity|].
  cbn [select_and_scale_from filter_data_from].
  step_call. case (py_eq _ _); [|apply IH].
  do 4 step_call. apply IH.
Qed.

(** C3: process_data and filter_data are the two instances of one function
    of (status literal, multiplier): on every input list select_and_scale at
    ('active', 1.1) returns or raises exactly what process_data does, and at
    ('pending', 1.2) exactly what filter_data does. *)
Theorem process_data_filter_data_one_shape (data : list record) :
  select_and_scale "active" lit_1_1 data = process_data data ∧
  select_and_scale "pending" lit_1_2 data = filter_data data.
Proof.
  split; [apply process_data_from_shape | apply filter_data_from_shape].
Qed.

Example increment_counter_twice :
  let '(r1, g1) := increment_counter initial_globals in
  let '(r2, g2) := increment_counter g1 in
  r1 = Returns (VInt 1) ∧ r2 = Returns (VInt 2) ∧ g2 !! "global_counter" = Some (VInt 2).
Proof. repeat split; reflexivity. Qed.

Example increment_counter_unbound :
  increment_counter ∅ = (Raises (NameError "global_counter"), ∅).
Proof. reflexivity. Qed.

(** C2: when global_counter is bound to a value c for which c + 1 is
    defined (an integer, a boolean or a float), one call to increment_counter
    returns c + 1, rebinds global_counter to c + 1 and leaves every other
    global name as it was; for an integer c the new value is the integer
    c + 1. *)
Theorem increment_counter_adds_one (globals : gmap string value) (c c' : value) :
  globals !! "global_counter" = Some c →
  py_add c (VInt 1) = Returns c' →
  ∃ globals',
    increment_counter globals = (Returns c', globals') ∧
    globals' !! "global_counter" = Some c' ∧
    (∀ name, name ≠ "global_counter" → globals' !! name = globals !! name) ∧
    (∀ n : Z, c = VInt n → c' = VInt (n + 1)).
Proof.
  intros Hc Hadd. exists (<["global_counter" := c']> globals).
  repeat split.
  - unfold increment_counter. by rewrite Hc, Hadd.
  - apply lookup_insert_eq.
  - intros name Hname. by apply lookup_insert_ne.
  - intros n ->. cbn in Hadd. congruence.
Qed.

Lemma increment_counter_adds_one_witness :
  ∃ globals',
    increment_counter (<["other" := VStr "kept"]> initial_globals)
      = (Returns (VInt 1), globals') ∧
    globals' !! "global_counter" = Some (VInt 1) ∧
    (∀ name, name ≠ "global_counter" →
       globals' !! name = (<["other" := VStr "kept"]> initial_globals) !! name) ∧
    (∀ n : Z, VInt 0 = VInt n → VInt 1 = VInt (n + 1)).
Proof.
  apply (increment_counter_adds_one
           (<["other" := VStr "kept"]> initial_globals) (VInt 0) (VInt 1));
    reflexivity.
Defined.

Example get_user_by_id_sample :
  let um := add_usr (add_usr (add_usr init {[ "id" := VInt 1 ]})
                       {[ "id" := VInt 2; "name" := VStr "first" ]})
                    {[ "id" := VInt 2; "name" := VStr "second" ]} in
  get_user_by_id um (VInt 2) = Returns (Some {[ "id" := VInt 2; "name" := VStr "first" ]}) ∧
  get_user_by_id um (VInt 7) = Returns None.
Proof. split; reflexivity. Qed.

Lemma has_id_lookup (u : record) (uid id : value) :
  u !! "id" = Some uid → has_id u id ↔ py_eq uid id = true.
Proof.
  intros Hu. split.
  - intros (v & Hv & Heq). congruence.
  - intros Heq. by exists uid.
Qed.

Lemma find_user_found (us : list record) (id : value) (u : record) :
  find_user us id = Returns (Some u) → first_with_id us id u.
Proof.
  induction us as [|u0 rest IH]; cbn; [done|].
  unfold subscript. destruct (u0 !! "id") as [uid|] eqn:Hu0; cbn; [|done].
  destruct (py_eq uid id) eqn:Heq.
  - intros [= <-]. exists 0%nat. split; [done|]. split; [by exists uid|].
    intros j w Hj. lia.
  - intros (i & Hi & Hid & Hbefore)%IH. exists (S i). split; [done|]. split; [done|].
    intros [|j] w Hj Hw; cbn in Hw.
    + injection Hw as <-. rewrite (has_id_lookup _ _ _ Hu0). congruence.
    + apply (Hbefore j); [lia|done].
Qed.

Lemma find_user_not_found (us : list record) (id : value) :
  find_user us id = Returns None → ∀ u, u ∈ us → ¬ has_id u id.
Proof.
  induction us as [|u0 rest IH]; cbn; [by intros _ u ?%elem_of_nil|].
  unfold subscript. destruct (u0 !! "id") as [uid|] eqn:Hu0; cbn; [|done].
  destruct (py_eq uid id) eqn:Heq; [done|].
  intros Hrest u [->|Hu]%elem_of_cons.
  - rewrite (has_id_lookup _ _ _ Hu0). congruence.
  - by apply IH.
Qed.

Lemma find_user_returns (us : list record) (id : value) :
  Forall (λ u, is_Some (u !! "id")) us → ∃ r, find_user us id = Returns r.
Proof.
  induction 1 as [|u0 rest [uid Hu0] _ IH]; cbn; [by eexists|].
  unfold subscript. rewrite Hu0. cbn.
  destruct (py_eq uid id); [by eexists | exact IH].
Qed.

Lemma first_with_id_unique (us : list record) (id : value) (u u' : record) :
  first_with_id us id u → first_with_id us id u' → u = u'.
Proof.
  intros (i & Hi & Hid & Hbefore) (i' & Hi' & Hid' & Hbefore').
  destruct (Nat.lt_trichotomy i i') as [Hlt|[->|Hlt]].
  - destruct (Hbefore' i u Hlt Hi Hid).
  - congruence.
  - destruct (Hbefore i' u' Hlt Hi' Hid').
Qed.

Lemma first_with_id_elem (us : list record) (id : value) (u : record) :
  first_with_id us id u → u ∈ us ∧ has_id u id.
Proof.
  intros (i & Hi & Hid & _). split; [|done]. by eapply list_elem_of_lookup_2.
Qed.

(** C9: when every stored user carries an 'id' field, get_user_by_id returns
    the first stored user whose id equals the argument and returns None
    exactly when no stored user has that id; add_usr appends the user at the
    end of the list and leaves every user stored before unchanged. *)
Theorem user_manager_lookup_and_append (self : user_manager) (id : value) :
  Forall (λ u, is_Some (u !! "id")) (users self) →
  returns_first_match self id ∧
  ∀ user : record,
    users (add_usr self user) = users self ++ [user] ∧
    ∀ i u, users self !! i = Some u → users (add_usr self user) !! i = Some u.
Proof.
  intros Hids. split; [split|].
  - intros u. split; [apply find_user_found|].
    intros Hfirst. unfold get_user_by_id.
    destruct (find_user_returns (users self) id Hids) as [[u'|] Hr]; rewrite Hr.
    + do 2 f_equal. apply find_user_found in Hr.
      by apply (first_with_id_unique (users self) id).
    + destruct (first_with_id_elem _ _ _ Hfirst) as [Hin Hid].
      destruct (find_user_not_found _ _ Hr u Hin Hid).
  - split; [apply find_user_not_found|].
    intros Hnone. unfold get_user_by_id.
    destruct (find_user_returns (users self) id Hids) as [[u'|] Hr]; rewrite Hr; [|done].
    apply find_user_found, first_with_id_elem in Hr as [Hin Hid].
    destruct (Hnone u' Hin Hid).
  - intros user. split; [done|].
    intros i u Hi. cbn. by apply lookup_app_l_Some.
Qed.

Lemma user_manager_lookup_and_append_witness :
  returns_first_match (add_usr init {[ "id" := VInt 1 ]}) (VInt 1) ∧
  ∀ user : record,
    users (add_usr (add_usr init {[ "id" := VInt 1 ]}) user)
      = users (add_usr init {[ "id" := VInt 1 ]}) ++ [user] ∧
    ∀ i u, users (add_usr init {[ "id" := VInt 1 ]}) !! i = Some u →
           users (add_usr (add_usr init {[ "id" := VInt 1 ]}) user) !! i = Some u.
Proof.
  apply (user_manager_lookup_and_append (add_usr init {[ "id" := VInt 1 ]}) (VInt 1)).
  repeat constructor. by exists (VInt 1).
Defined.

(** Without that proviso the statement of C9 fails: on a manager that stores
    a user without an 'id' field no stored user has id 5, yet the call raises
    KeyError instead of returning None. *)
Lemma get_user_by_id_raises_on_missing_id :
  get_user_by_id (add_usr init ∅) (VInt 5) = Raises (KeyError "id") ∧
  ¬ returns_first_match (add_usr init ∅) (VInt 5).
Proof.
  split; [reflexivity|].
  intros [_ [_ Hnone]].
  assert (get_user_by_id (add_usr init ∅) (VInt 5) = Returns None) as Hget; [|done].
  apply Hnone. intros u [->|[]%elem_of_nil]%elem_of_cons (v & Hv & _).
  by rewrite lookup_empty in Hv.
Qed.

End fixture_facts.

(** ** File handling *)

Section files_facts.
Import Py Files.

Example risky_function_leaks_sample :
  risky_function sample_fs "config.json" initial_state
  = (Raises UnicodeDecodeError,
     let h := {| fd := 3; path := "config.json"; enc := LocaleDefault |} in
     {| open_files := [h]; next_fd := 4; trace := [Opened h; ReadFrom h] |}).
Proof. reflexivity. Qed.

Example read_config_file_releases_sample :
  read_config_file sample_fs "config.json" initial_state
  = (Raises TypeError,
     let h := {| fd := 3; path := "config.json"; enc := Utf8 |} in
     {| open_files := []; next_fd := 4; trace := [Opened h; ReadFrom h; Closed h] |}).
Proof. reflexivity. Qed.

Example read_config_file_missing_sample :
  read_config_file sample_fs "absent.json" initial_state
  = (Raises (FileNotFoundError "Configuration file not found: absent.json"),
     initial_state).
Proof. reflexivity. Qed.

Lemma filter_all {A} (P : A → Prop) `{∀ a, Decision (P a)} (l : list A) :
  Forall P l → filter P l = l.
Proof.
  induction 1 as [|a l Ha _ IH]; [done|]. by rewrite filter_cons_True, IH.
Qed.

(** Closing the handle that was opened last restores the set of open files. *)
Lemma close_fresh_handle (s : os_state) (h : handle) :
  fd h = next_fd s → well_formed s →
  filter (λ h', h' ≠ h) (h :: open_files s) = open_files s.
Proof.
  intros Hfd Hwf. rewrite filter_cons_False by (intros Hne; by apply Hne).
  apply filter_all. eapply Forall_impl; [exact Hwf|].
  intros h' Hlt ->. lia.
Qed.

(** A handle that has been closed is not among the open files. *)
Lemma closed_not_open (h : handle) (l : list handle) :
  h ∉ filter (λ h', h' ≠ h) l.
Proof. by intros [Hne _]%list_elem_of_filter. Qed.

(** The allocation invariant holds initially and every call keeps it. *)
Lemma py_open_well_formed {J} (fs : filesystem J) (e : encoding) (filename : string)
    (s : os_state) :
  well_formed s → well_formed (py_open fs e filename s).2.
Proof.
  unfold well_formed, py_open. intros Hwf.
  destruct (fs_open fs filename); [done|]. cbn.
  constructor; [cbn; lia|]. eapply Forall_impl; [exact Hwf|]. cbn. lia.
Qed.

Lemma file_close_well_formed (h : handle) (s : os_state) :
  well_formed s → well_formed (file_close h s).2.
Proof.
  unfold well_formed, file_close. cbn -[filter]. intros Hwf.
  rewrite Forall_forall in Hwf |- *.
  intros h' [_ Hin]%list_elem_of_filter. by apply Hwf.
Qed.

(** In the events of a scoped acquisition every open has its close. *)
Lemma opened_then_closed (h0 h : handle) :
  Opened h ∈ [Opened h0; ReadFrom h0; Closed h0] →
  h = h0 ∧ Closed h ∈ [Opened h0; ReadFrom h0; Closed h0].
Proof.
  intros [[= ->]|Hin]%elem_of_cons.
  - split; [done|]. do 2 (apply elem_of_cons; right). apply elem_of_cons. by left.
  - apply elem_of_cons in Hin as [[=]|Hin].
    apply elem_of_cons in Hin as [[=]|Hin].
    by apply elem_of_nil in Hin.
Qed.

(** What [read_config_file] does once the path has opened: read, decode,
    close, and only then let the [except] clauses see the outcome. *)
Lemma read_config_file_opened {J} (fs : filesystem J) (filename : string)
    (s : os_state) :
  fs_open fs filename = None →
  let h := {| fd := next_fd s; path := filename; enc := Utf8 |} in
  ∃ r, read_config_file fs filename s =
       (r, {| open_files := filter (λ h', h' ≠ h) (h :: open_files s);
              next_fd := S (next_fd s);
              trace := trace s ++ [Opened h; ReadFrom h; Closed h] |}) ∧
       ∀ text e, fs_read fs Utf8 filename = Returns text →
                 json_loads fs text = Raises e → ∃ e', r = Raises e'.
Proof.
  intros Hopen h.
  unfold read_config_file, try_except, with_open, py_open, json_load,
    file_read, file_close, lift, raise, mbind, io_bind.
  rewrite Hopen. cbn -[filter].
  destruct (fs_read fs Utf8 filename) as [text|err].
  - destruct (json_loads fs text) as [doc|err] eqn:Hdoc; [|destruct err];
      cbn -[filter]; rewrite <-!app_assoc;
      (eexists; split; [reflexivity|]);
      intros ? ? [= <-] ?; first [by eexists | congruence].
  - destruct err; cbn -[filter]; rewrite <-!app_assoc;
      (eexists; split; [reflexivity|]); intros ? ? [=].
Qed.

(** On the path where nothing raises, the manual close does run. *)
Lemma risky_function_closes_when_read_returns {J} (fs : filesystem J)
    (filename content : string) (s : os_state) :
  fs_open fs filename = None →
  fs_read fs LocaleDefault filename = Returns content →
  let h := {| fd := next_fd s; path := filename; enc := LocaleDefault |} in
  ∃ s', risky_function fs filename s = (Returns content, s') ∧
        trace s' = trace s ++ [Opened h; ReadFrom h; Closed h] ∧
        h ∉ open_files s'.
Proof.
  intros Hopen Hread h. eexists. split; [|split].
  - unfold risky_function, py_open, file_read, file_close, mbind, io_bind.
    rewrite Hopen. cbn -[filter]. rewrite Hread. reflexivity.
  - cbn. by rewrite <-!app_assoc.
  - apply closed_not_open.
Qed.

(** C4: if open succeeds and the read that follows raises, risky_function
    raises the same exception with the handle still open and without having
    called close; read_config_file closes every handle it opened before it
    returns or raises, so that none of them is open afterwards and the set of
    open files is what it was, in particular when decoding the text raises. *)
Theorem manual_close_leaks_scoped_close_releases {J : Type}
    (fs : filesystem J) (filename : string) (s : os_state) :
  (∀ e, fs_open fs filename = None →
        fs_read fs LocaleDefault filename = Raises e →
        let h := {| fd := next_fd s; path := filename; enc := LocaleDefault |} in
        ∃ s', risky_function fs filename s = (Raises e, s') ∧
              h ∈ open_files s' ∧
              trace s' = trace s ++ [Opened h; ReadFrom h]) ∧
  (∃ r s' evs, read_config_file fs filename s = (r, s') ∧
               trace s' = trace s ++ evs ∧
               (∀ h, Opened h ∈ evs → Closed h ∈ evs ∧ h ∉ open_files s') ∧
               (well_formed s → open_files s' = open_files s)) ∧
  (∀ text e, fs_open fs filename = None →
             fs_read fs Utf8 filename = Returns text →
             json_loads fs text = Raises e →
             let h := {| fd := next_fd s; path := filename; enc := Utf8 |} in
             ∃ e' s', read_config_file fs filename s = (Raises e', s') ∧
                      trace s' = trace s ++ [Opened h; ReadFrom h; Closed h] ∧
                      (h ∉ open_files s') ∧
                      (well_formed s → open_files s' = open_files s)).
Proof.
  split; [|split].
  - intros e Hopen Hread h. eexists. split; [|split].
    + unfold risky_function, py_open, file_read, mbind, io_bind.
      rewrite Hopen. cbn. rewrite Hread. reflexivity.
    + cbn. apply elem_of_cons. by left.
    + cbn. by rewrite <-app_assoc.
  - destruct (fs_open fs filename) as [err|] eqn:Hopen.
    + exists (read_config_file fs filename s).1, s, [].
      unfold read_config_file, try_except, with_open, py_open.
      rewrite Hopen, app_nil_r.
      split_and!; [by destruct err | done | by intros h ?%elem_of_nil | done].
    + destruct (read_config_file_opened fs filename s Hopen) as (r & -> & _).
      do 3 eexists. split_and!; [reflexivity..| |].
      * intros h [-> Hclosed]%opened_then_closed. split; [done|].
        apply closed_not_open.
      * by apply close_fresh_handle.
  - intros text e Hopen Hread Hparse h.
    destruct (read_config_file_opened fs filename s Hopen) as (r & -> & Hraises).
    destruct (Hraises text e Hread Hparse) as [e' ->].
    do 2 eexists. split_and!; [reflexivity..| |].
    + apply closed_not_open.
    + by apply close_fresh_handle.
Qed.

Lemma manual_close_leaks_scoped_close_releases_witness :
  (let h := {| fd := 3; path := "config.json"; enc := LocaleDefault |} in
   ∃ s', risky_function sample_fs "config.json" initial_state
           = (Raises UnicodeDecodeError, s') ∧
         h ∈ open_files s' ∧
         trace s' = trace initial_state ++ [Opened h; ReadFrom h]) ∧
  (let h := {| fd := 3; path := "config.json"; enc := Utf8 |} in
   ∃ e' s', read_config_file sample_fs "config.json" initial_state = (Raises e', s') ∧
            trace s' = trace initial_state ++ [Opened h; ReadFrom h; Closed h] ∧
            (h ∉ open_files s') ∧
            (well_formed initial_state → open_files s' = open_files initial_state)).
Proof.
  destruct (manual_close_leaks_scoped_close_releases
              sample_fs "config.json" initial_state) as (Hleak & _ & Hparse).
  split.
  - apply (Hleak UnicodeDecodeError); reflexivity.
  - apply (Hparse "{" JSONDecodeError); reflexivity.
Defined.

End files_facts.

(** ** The report *)

Section engine_facts.
Import Engine.

Example report_sample :
  let u := {| unit_path := "examples/bad-example.py"; unit_lines := [] |} in
  (line <$> report [sample_line_rule; sample_naming_rule] [(u, [])]) = [8; 11; 98]%nat ∧
  report [sample_line_rule; sample_naming_rule] [(u, [])]
  = report [sample_naming_rule; sample_line_rule] [(u, [])].
Proof. vm_compute. split; reflexivity. Qed.

#[local] Instance N_of_ascii_inj : Inj (=) (=) Ascii.N_of_ascii.
Proof.
  intros a b Heq.
  by rewrite <-(Ascii.ascii_N_embedding a), <-(Ascii.ascii_N_embedding b), Heq.
Qed.

#[local] Instance codes_inj : Inj (=) (=) codes.
Proof.
  intros s t Heq. unfold codes in Heq. apply (inj (fmap Ascii.N_of_ascii)) in Heq.
  by rewrite <-(String.string_of_list_ascii_of_string s),
    <-(String.string_of_list_ascii_of_string t), Heq.
Qed.

#[local] Instance severity_rank_inj : Inj (=) (=) severity_rank.
Proof. by intros [] [] ?. Qed.

#[local] Instance sort_key_inj : Inj (=) (=) sort_key.
Proof.
  intros [r1 s1 f1 l1 m1] [r2 s2 f2 l2 m2]. unfold sort_key. cbn.
  intros [= Hf Hl Hr Hm Hs].
  apply (inj codes) in Hf, Hr, Hm. apply (inj severity_rank) in Hs.
  by subst.
Qed.

#[local] Instance finding_le_trans : Transitive finding_le.
Proof.
  intros f g h [Hfg|Hfg] [Hgh|Hgh].
  - left. by trans (sort_key g).
  - left. by rewrite <-Hgh.
  - left. by rewrite Hfg.
  - right. congruence.
Qed.

#[local] Instance finding_le_total : Total finding_le.
Proof.
  intros f g. unfold finding_le.
  destruct (trichotomyT lexico (sort_key f) (sort_key g)) as [[?|?]|?]; auto.
Qed.

#[local] Instance finding_le_antisymm : AntiSymm (=) finding_le.
Proof.
  intros f g [Hfg|Hfg] [Hgf|Hgf]; try by apply (inj sort_key).
  destruct (irreflexivity lexico (sort_key f)). by trans (sort_key g).
Qed.

Lemma finding_le_file_line (f g : Finding) : finding_le f g → file_line_le f g.
Proof.
  unfold finding_le, file_line_le, file_lt, sort_key.
  intros [[Hlt|[Hfile [Hlt|[Hline _]]]]|[= Hfile Hline _ _ _]]; cbn in *.
  - by left.
  - right. split; [by apply (inj codes)|]. unfold lexico, nat_lexico in Hlt. lia.
  - right. split; [by apply (inj codes)|]. lia.
  - right. split; [by apply (inj codes)|]. lia.
Qed.

Lemma StronglySorted_lookup {A} (R : relation A) (l : list A) (i j : nat) (a b : A) :
  StronglySorted R l → (i < j)%nat → l !! i = Some a → l !! j = Some b → R a b.
Proof.
  intros Hsorted. revert i j.
  induction Hsorted as [|c l _ IH Hall]; intros i j Hij Hi Hj; [done|].
  destruct j as [|j]; [lia|]. cbn in Hj.
  destruct i as [|i]; cbn in Hi.
  - injection Hi as ->. rewrite Forall_forall in Hall.
    apply Hall. by eapply list_elem_of_lookup_2.
  - apply (IH i j); [lia|done..].
Qed.

Lemma StronglySorted_weaken {A} (R R' : relation A) (l : list A) :
  (∀ a b, R a b → R' a b) → StronglySorted R l → StronglySorted R' l.
Proof.
  intros Hweak. induction 1 as [|a l _ IH Hall]; constructor; [done|].
  eapply Forall_impl; [exact Hall|]. apply Hweak.
Qed.

Lemma StronglySorted_filter {A} (R : relation A) (P : A → Prop)
    `{∀ a, Decision (P a)} (l : list A) :
  StronglySorted R l → StronglySorted R (filter P l).
Proof.
  induction 1 as [|a l _ IH Hall]; [constructor|].
  rewrite filter_cons. destruct (decide (P a)); [|done].
  constructor; [done|]. rewrite Forall_forall in Hall |- *.
  intros b [_ Hb]%list_elem_of_filter. by apply Hall.
Qed.

Lemma dedupe_elem_of (fs : list Finding) (f : Finding) : f ∈ dedupe fs → f ∈ fs.
Proof.
  induction fs as [|g rest IH]; cbn; [done|].
  intros [->|[_ Hin]%list_elem_of_filter]%elem_of_cons.
  - apply elem_of_cons. by left.
  - apply elem_of_cons. right. by apply IH.
Qed.

Lemma StronglySorted_dedupe (R : relation Finding) (fs : list Finding) :
  StronglySorted R fs → StronglySorted R (dedupe fs).
Proof.
  induction 1 as [|f rest _ IH Hall]; cbn; constructor.
  - by apply StronglySorted_filter.
  - rewrite Forall_forall in Hall |- *.
    intros g [_ Hg]%list_elem_of_filter. by apply Hall, dedupe_elem_of.
Qed.

Lemma NoDup_fmap_filter {A B} (k : A → B) (P : A → Prop)
    `{∀ a, Decision (P a)} (l : list A) :
  NoDup (k <$> l) → NoDup (k <$> filter P l).
Proof.
  induction l as [|a l IH]; [done|].
  rewrite fmap_cons, NoDup_cons, filter_cons. intros [Hnotin Hnodup].
  destruct (decide (P a)); [|by apply IH].
  rewrite fmap_cons, NoDup_cons. split; [|by apply IH].
  rewrite list_elem_of_fmap. intros (b & Hk & [_ Hb]%list_elem_of_filter).
  apply Hnotin, list_elem_of_fmap. by exists b.
Qed.

Lemma NoDup_identity_dedupe (fs : list Finding) : NoDup (identity <$> dedupe fs).
Proof.
  induction fs as [|f rest IH]; cbn; [constructor|].
  apply NoDup_cons. split; [|by apply NoDup_fmap_filter].
  rewrite list_elem_of_fmap. intros (g & Hid & [Hne _]%list_elem_of_filter).
  by destruct Hne.
Qed.

(** *** The reporter when severities are consistent

    If findings that agree in (rule id, file, line, message) are equal,
    which is the case whenever that identity fixes the severity, the
    reporter yields exactly what deduplicating first and sorting afterwards
    yields. *)

Lemma dedupe_covers (fs : list Finding) (g : Finding) :
  g ∈ fs → ∃ g', g' ∈ dedupe fs ∧ identity g' = identity g.
Proof.
  induction fs as [|f rest IH]; [by intros ?%elem_of_nil|].
  intros [->|Hin]%elem_of_cons; cbn.
  - exists f. split; [|done]. apply elem_of_cons. by left.
  - destruct (IH Hin) as (g' & Hg' & Hid).
    destruct (decide (identity g' = identity f)) as [Heq|Hne].
    + exists f. split; [|congruence]. apply elem_of_cons. by left.
    + exists g'. split; [|done].
      apply elem_of_cons. right. by apply list_elem_of_filter.
Qed.

Lemma dedupe_elem_of_consistent (fs : list Finding) (g : Finding) :
  (∀ f f', f ∈ fs → f' ∈ fs → identity f = identity f' → f = f') →
  g ∈ dedupe fs ↔ g ∈ fs.
Proof.
  intros Hcons. split; [apply dedupe_elem_of|].
  intros Hin. destruct (dedupe_covers fs g Hin) as (g' & Hg' & Hid).
  by rewrite <-(Hcons g' g (dedupe_elem_of _ _ Hg') Hin Hid).
Qed.

Lemma NoDup_dedupe (fs : list Finding) : NoDup (dedupe fs).
Proof. apply (NoDup_fmap_1 identity), NoDup_identity_dedupe. Qed.

Lemma aggregate_dedupe_then_sort (fs : list Finding) :
  (∀ f f', f ∈ fs → f' ∈ fs → identity f = identity f' → f = f') →
  aggregate fs = merge_sort finding_le (dedupe fs).
Proof.
  intros Hcons. unfold aggregate. apply (Sorted_unique finding_le).
  - apply StronglySorted_Sorted, StronglySorted_dedupe.
    apply StronglySorted_merge_sort; apply _.
  - apply Sorted_merge_sort, _.
  - etrans; [|symmetry; apply merge_sort_Permutation].
    apply NoDup_Permutation; [apply NoDup_dedupe..|].
    intros g. rewrite !dedupe_elem_of_consistent; [|done|].
    + by rewrite merge_sort_Permutation.
    + intros f f'. rewrite !merge_sort_Permutation. apply Hcons.
Qed.

(** C5: whatever the rules and the parsed units, the report is sorted by
    (file, line), the findings of one file come in non-decreasing line
    order, and no two findings in it share (rule id, file, line, message). *)
Theorem report_sorted_without_duplicates
    (rules : list Rule) (parsed : list (SourceUnit * list SyntacticElement)) :
  StronglySorted file_line_le (report rules parsed) ∧
  (∀ i j f g, (i < j)%nat →
     report rules parsed !! i = Some f → report rules parsed !! j = Some g →
     file f = file g → (line f ≤ line g)%nat) ∧
  NoDup (identity <$> report rules parsed).
Proof.
  assert (StronglySorted file_line_le (report rules parsed)) as Hsorted.
  { unfold report, aggregate. apply StronglySorted_dedupe.
    apply (StronglySorted_weaken finding_le); [apply finding_le_file_line|].
    apply StronglySorted_merge_sort; apply _. }
  split; [done|]. split; [|apply NoDup_identity_dedupe].
  intros i j f g Hij Hi Hj Hfile.
  destruct (StronglySorted_lookup _ _ _ _ _ _ Hsorted Hij Hi Hj) as [Hlt|[_ Hle]]; [|done].
  unfold file_lt in Hlt. rewrite Hfile in Hlt.
  destruct (irreflexivity lexico _ Hlt).
Qed.

Lemma bind_Permutation_pointwise {A B} (k k' : A → list B) (l : list A) :
  (∀ a, k a ≡ₚ k' a) → l ≫= k ≡ₚ l ≫= k'.
Proof.
  intros Hk. induction l as [|a l IH]; [done|].
  rewrite !bind_cons. by rewrite (Hk a), IH.
Qed.

Lemma evaluate_all_Permutation (rules1 rules2 : list Rule)
    (parsed : list (SourceUnit * list SyntacticElement)) :
  rules1 ≡ₚ rules2 → evaluate_all rules1 parsed ≡ₚ evaluate_all rules2 parsed.
Proof.
  intros Hperm. unfold evaluate_all. apply bind_Permutation_pointwise.
  intros [u elements]. unfold evaluate. by rewrite Hperm.
Qed.

(** C6: for every parsed input, running the registered rules in any two
    orders (two permutations of the registry) yields the same report. *)
Theorem report_independent_of_rule_order
    (registry order1 order2 : list Rule)
    (parsed : list (SourceUnit * list SyntacticElement)) :
  order1 ≡ₚ registry → order2 ≡ₚ registry →
  report order1 parsed = report order2 parsed.
Proof.
  intros H1 H2. unfold report, aggregate. f_equal.
  apply (Sorted_unique finding_le).
  - apply Sorted_merge_sort, _.
  - apply Sorted_merge_sort, _.
  - rewrite !merge_sort_Permutation.
    apply evaluate_all_Permutation. by rewrite H1, H2.
Qed.

Lemma report_independent_of_rule_order_witness :
  let u := {| unit_path := "examples/bad-example.py"; unit_lines := [] |} in
  report [sample_line_rule; sample_naming_rule] [(u, [])]
  = report [sample_naming_rule; sample_line_rule] [(u, [])].
Proof.
  apply (report_independent_of_rule_order [sample_line_rule; sample_naming_rule]).
  - reflexivity.
  - apply perm_swap.
Defined.

End engine_facts.

(** * Further properties of the fixture *)

(** ** More on the nested conditional *)

Section complexity_branches.
Import Complexity.

Ltac run_complex_calculation :=
  unfold complex_calculation, return_line, run;
  cbn [exec complex_calculation_body eval lookup_var x y z ex ey ez];
  rewrite !gtb_spec; repeat case_bool_decide; cbn [fst snd].

(** X1: complex_calculation leaves through the product return on line 56
    exactly when x > y > z > 0, the tests on x and y against 0 being implied,
    and it then returns x * y * z. *)
Theorem complex_calculation_product_branch (a b c : Z) :
  (return_line a b c = 56%nat ↔ a > b ∧ b > c ∧ c > 0) ∧
  (return_line a b c = 56%nat → complex_calculation a b c = a * b * c).
Proof.
  split.
  - run_complex_calculation; split; intros Hret; first [lia | discriminate | done].
  - run_complex_calculation; intros Hret; first [discriminate | done].
Qed.

(** X2: the result is negative only on the x - y - z return of line 60, and
    exactly when 0 < y < x, y <= z and x < y + z; on every other path the
    result is at least 0. *)
Theorem complex_calculation_negative_iff (a b c : Z) :
  (complex_calculation a b c < 0 ↔ 0 < b ∧ b < a ∧ b ≤ c ∧ a < b + c) ∧
  (complex_calculation a b c < 0 → return_line a b c = 60%nat).
Proof.
  split.
  - run_complex_calculation; split; intros Hret; nia.
  - run_complex_calculation; intros Hret; first [reflexivity | nia].
Qed.

End complexity_branches.

(** ** More on [Calculate_Total] *)

Section calculate_total_facts.
Import Py Fixture.

Lemma int_priced_Forall2 (items : list record) :
  Forall (λ i, ∃ n, has_price i (VInt n)) items →
  Forall2 (λ i n, has_price i (VInt n)) items (int_price <$> items).
Proof.
  induction 1 as [|i items [n Hi] _ IH]; cbn; constructor; [|done].
  unfold int_price, has_price in *. by rewrite Hi.
Qed.

Lemma sum_Z_Permutation (ns ns' : list Z) : ns ≡ₚ ns' → sum_Z ns = sum_Z ns'.
Proof.
  unfold sum_Z. induction 1; cbn in *; lia.
Qed.

(** X3: when every item carries an integer price, the total does not depend
    on the order of the items. *)
Theorem Calculate_Total_order_irrelevant (items items' : list record) :
  items ≡ₚ items' →
  Forall (λ i, ∃ n, has_price i (VInt n)) items →
  Calculate_Total items' = Calculate_Total items.
Proof.
  intros Hperm Hall. unfold Calculate_Total.
  rewrite (Calculate_Total_from_ints items _ 0 (int_priced_Forall2 items Hall)).
  rewrite Hperm in Hall.
  rewrite (Calculate_Total_from_ints items' _ 0 (int_priced_Forall2 items' Hall)).
  do 3 f_equal. apply sum_Z_Permutation. by rewrite Hperm.
Qed.

Lemma Calculate_Total_order_irrelevant_witness :
  Calculate_Total [ {[ "price" := VInt 4 ]}; {[ "price" := VInt 3 ]} ]
  = Calculate_Total [ {[ "price" := VInt 3 ]}; {[ "price" := VInt 4 ]} ].
Proof.
  apply Calculate_Total_order_irrelevant.
  - apply perm_swap.
  - repeat constructor; eexists; reflexivity.
Defined.





Lemma Calculate_Total_from_missing (t : value) (items : list record) (bad : record) :
  bad ∈ items → bad !! "price" = None → ∃ e, Calculate_Total_from t items = Raises e.
Proof.
  intros Hin Hbad. revert t.
  induction items as [|i rest IH]; intros t; [by apply elem_of_nil in Hin|].
  cbn. apply elem_of_cons in Hin as [<-|Hin].
  - unfold subscript. rewrite Hbad. by eexists.
  - destruct (subscript i "price") as [p|]; cbn; [|by eexists].
    destruct (py_add t p) as [t'|]; cbn; [by apply IH | by eexists].
Qed.

Lemma Calculate_Total_from_app_ints (pre rest : list record) (t : Z) :
  Forall (λ i, ∃ n, has_price i (VInt n)) pre →
  Calculate_Total_from (VInt t) (pre ++ rest)
  = Calculate_Total_from (VInt (t + sum_Z (int_price <$> pre))) rest.
Proof.
  intros Hall. revert t.
  induction Hall as [|i pre [n Hi] _ IH]; intros t; cbn.
  - by rewrite Z.add_0_r.
  - unfold subscript. rewrite Hi. cbn. rewrite IH. do 2 f_equal.
    assert (int_price i = n) as -> by (unfold int_price; by rewrite Hi).
    unfold sum_Z. lia.
Qed.

(** X5: an item without a 'price' field makes the whole call raise, wherever
    it stands in the list; when the items before it carry integer prices the
    exception is KeyError('price'), and no partial total is returned. *)
Theorem Calculate_Total_missing_price_raises (items : list record) :
  (∀ bad, bad ∈ items → bad !! "price" = None →
          ∃ e, Calculate_Total items = Raises e) ∧
  (∀ pre bad post, items = pre ++ bad :: post →
          Forall (λ i, ∃ n, has_price i (VInt n)) pre →
          bad !! "price" = None →
          Calculate_Total items = Raises (KeyError "price")).
Proof.
  split.
  - intros bad. apply Calculate_Total_from_missing.
  - intros pre bad post -> Hpre Hbad. unfold Calculate_Total.
    rewrite (Calculate_Total_from_app_ints pre (bad :: post) 0 Hpre).
    cbn. unfold subscript. by rewrite Hbad.
Qed.

End calculate_total_facts.

(** ** [calculate_shipping_cost] and [calculate_tax_amount] *)

Section rates_facts.
Import Py Fixture.

Example calculate_shipping_cost_samples :
  calculate_shipping_cost (VInt 11) = Returns (VFloat 27.5%float) ∧
  calculate_shipping_cost (VInt 10) = Returns (VFloat 18%float) ∧
  calculate_shipping_cost (VFloat 5.5%float) = Returns (VFloat (5.5 * lit_1_8)%float) ∧
  calculate_shipping_cost (VFloat nan) = Returns (VFloat 5%float).
Proof. vm_compute. repeat split; reflexivity. Qed.

Example calculate_tax_amount_sample :
  calculate_tax_amount (VFloat 100%float) (VFloat 8.5%float) = Returns (VFloat 8.5%float).
Proof. vm_compute. reflexivity. Qed.

Lemma mul_float_returns_float (a v : value) (c : PrimFloat.float) :
  mul_float a c = Returns v → ∃ f, v = VFloat f.
Proof.
  destruct a as [|b|n|g|s]; cbn; try destruct (float_of_int _); cbn;
    intros [= <-]; by eexists.
Qed.

Lemma small_int_converts (n : Z) :
  5 < n ≤ 10 → ∃ f, float_of_int n = Returns f.
Proof.
  intros Hn.
  assert (n = 6 ∨ n = 7 ∨ n = 8 ∨ n = 9 ∨ n = 10) as Hcases by lia.
  destruct Hcases as [->|[->|[->|[->| ->]]]]; vm_compute; by eexists.
Qed.

(** X6: a shipping cost that is returned is always a float; every integer
    weight of at most 5, zero and negative weights included, costs the flat
    5.0; every integer weight up to 10 is priced without an exception; and a
    weight that is None or a string raises TypeError. *)
Theorem calculate_shipping_cost_edges (weight : value) :
  (∀ v, calculate_shipping_cost weight = Returns v → ∃ f, v = VFloat f) ∧
  (∀ n, weight = VInt n → n ≤ 5 →
        calculate_shipping_cost weight = Returns (VFloat lit_5_0)) ∧
  (∀ n, weight = VInt n → n ≤ 10 →
        ∃ f, calculate_shipping_cost weight = Returns (VFloat f)) ∧
  (weight = VNone ∨ (∃ s, weight = VStr s) →
        calculate_shipping_cost weight = Raises TypeError).
Proof.
  split_and!.
  - intros v. unfold calculate_shipping_cost.
    destruct (gt_int weight 10) as [[]|]; cbn; [apply mul_float_returns_float| |done].
    destruct (gt_int weight 5) as [[]|]; cbn; [apply mul_float_returns_float| |done].
    intros [= <-]. by eexists.
  - intros n -> Hn. unfold calculate_shipping_cost. cbn.
    rewrite !gtb_spec, !bool_decide_eq_false_2 by lia. done.
  - intros n -> Hn. unfold calculate_shipping_cost. cbn.
    rewrite !gtb_spec, bool_decide_eq_false_2 by lia. cbn.
    case_bool_decide; cbn; [|by eexists].
    destruct (small_int_converts n) as [f ->]; [lia|]. by eexists.
  - intros [->|[s ->]]; reflexivity.
Qed.

Lemma int_below_minimum (n : Z) :
  int_lt_float n MINIMUM_TAXABLE_AMOUNT = bool_decide (n ≤ 0).
Proof.
  unfold int_lt_float.
  change (Prim2SF MINIMUM_TAXABLE_AMOUNT) with (S754_finite false 5764607523034235 (-59)).
  unfold int_cmp_finite. cbn.
  change (2 ^ (- (-59))) with 576460752303423488.
  destruct (Z.compare_spec (n * 576460752303423488) 5764607523034235);
    case_bool_decide; first [reflexivity | lia].
Qed.

(** X7: for every integer price of at most 0, and every float price below
    0.01, the tax is 0.0 and the tax rate is never looked at, so that even a
    rate that is not a number is accepted; from integer price 1 on, a rate
    that is None or a string raises TypeError. *)
Theorem calculate_tax_amount_edges (price tax_rate : value) :
  (∀ n, price = VInt n → n ≤ 0 →
        calculate_tax_amount price tax_rate = Returns (VFloat lit_0_0)) ∧
  (∀ f, price = VFloat f → PrimFloat.ltb f MINIMUM_TAXABLE_AMOUNT = true →
        calculate_tax_amount price tax_rate = Returns (VFloat lit_0_0)) ∧
  (∀ n, price = VInt n → 1 ≤ n →
        tax_rate = VNone ∨ (∃ s, tax_rate = VStr s) →
        calculate_tax_amount price tax_rate = Raises TypeError).
Proof.
  split_and!.
  - intros n -> Hn. unfold calculate_tax_amount. cbn [lt_float as_int].
    rewrite int_below_minimum, bool_decide_eq_true_2 by lia. done.
  - intros f -> Hf. unfold calculate_tax_amount. cbn [lt_float]. by rewrite Hf.
  - intros n -> Hn Hrate. unfold calculate_tax_amount. cbn [lt_float as_int].
    rewrite int_below_minimum, bool_decide_eq_false_2 by lia.
    by destruct Hrate as [->|[s ->]].
Qed.

End rates_facts.

(** ** More on [process_data] and [filter_data] *)

Section selection_facts.
Import Py Fixture.

(** The two functions as instances of their common shape. *)
Lemma process_data_unfold (data : list record) :
  process_data data = select_and_scale "active" lit_1_1 data.
Proof. symmetry. apply process_data_from_shape. Qed.

Lemma filter_data_unfold (data : list record) :
  filter_data data = select_and_scale "pending" lit_1_2 data.
Proof. symmetry. apply filter_data_from_shape. Qed.

Section common_shape.
Variables (status_lit : string) (multiplier : PrimFloat.float).

Abbreviation go := (select_and_scale_from status_lit multiplier).

Lemma is_selected_status (item : record) (v : value) :
  item !! "status" = Some v → is_selected status_lit item = py_eq v (VStr status_lit).
Proof. intros Hv. unfold is_selected. by rewrite Hv. Qed.

Lemma go_selected (acc rest : list record) (item : record) :
  is_selected status_lit item = true →
  go acc (item :: rest) =
    id ← subscript item "id"; name ← subscript item "name";
    v ← subscript item "value"; scaled ← mul_float v multiplier;
    go (acc ++ [list_to_map [("id", id); ("name", name); ("value", scaled)]]) rest.
Proof.
  unfold is_selected. destruct (item !! "status") as [v|] eqn:Hst; [|done].
  intros Hsel. cbn [select_and_scale_from].
  replace (subscript item "status") with (Returns v)
    by (unfold subscript; by rewrite Hst).
  cbn [mbind result_bind]. by rewrite Hsel.
Qed.

Lemma go_skipped (acc rest : list record) (item : record) :
  is_Some (item !! "status") → is_selected status_lit item = false →
  go acc (item :: rest) = go acc rest.
Proof.
  unfold is_selected. intros [v Hst]. rewrite Hst.
  intros Hskip. cbn [select_and_scale_from].
  replace (subscript item "status") with (Returns v)
    by (unfold subscript; by rewrite Hst).
  cbn [mbind result_bind]. by rewrite Hskip.
Qed.

Lemma go_no_status (acc rest : list record) (item : record) :
  item !! "status" = None → go acc (item :: rest) = Raises (KeyError "status").
Proof.
  intros Hnone. cbn [select_and_scale_from].
  replace (subscript item "status") with (@Raises value (KeyError "status"))
    by (unfold subscript; by rewrite Hnone).
  done.
Qed.

(** Every way a step of the loop can go. *)
Lemma go_cases (item : record) :
  item !! "status" = None ∨
  (is_Some (item !! "status") ∧ is_selected status_lit item = false) ∨
  is_selected status_lit item = true.
Proof.
  unfold is_selected. destruct (item !! "status") as [v|]; [|by left].
  right. destruct (py_eq v (VStr status_lit)); [by right | left; eauto].
Qed.

Lemma go_returns (data acc rs : list record) :
  go acc data = Returns rs →
  ∃ new, rs = acc ++ new ∧
         Forall2 (scaled_copy multiplier) (filter (λ it, is_selected status_lit it) data) new.
Proof.
  revert acc. induction data as [|item rest IH]; intros acc.
  - cbn. intros [= <-]. exists []. by rewrite app_nil_r.
  - destruct (go_cases item) as [Hnone|[[Hsome Hskip]|Hsel]].
    + by rewrite go_no_status.
    + rewrite go_skipped by done.
      rewrite filter_cons_False by (rewrite Hskip; exact id).
      apply IH.
    + rewrite go_selected by done.
      rewrite filter_cons_True by (rewrite Hsel; exact I).
      unfold subscript.
      destruct (item !! "id") as [id|] eqn:Hid; cbn; [|done].
      destruct (item !! "name") as [name|] eqn:Hname; cbn; [|done].
      destruct (item !! "value") as [v|] eqn:Hvalue; cbn; [|done].
      destruct (mul_float v multiplier) as [scaled|] eqn:Hmul; cbn; [|done].
      intros (new & -> & Hnew)%IH. eexists (_ :: new).
      split; [by rewrite <-app_assoc|].
      constructor; [|done]. by exists id, name, v, scaled.
Qed.

Lemma go_shift (data acc : list record) :
  go acc data = rs ← go [] data; Returns (acc ++ rs).
Proof.
  revert acc. induction data as [|item rest IH]; intros acc.
  - cbn. by rewrite app_nil_r.
  - destruct (go_cases item) as [Hnone|[[Hsome Hskip]|Hsel]].
    + by rewrite !go_no_status.
    + rewrite !go_skipped by done. apply IH.
    + rewrite !go_selected by done.
      destruct (subscript item "id") as [id|]; cbn; [|done].
      destruct (subscript item "name") as [name|]; cbn; [|done].
      destruct (subscript item "value") as [v|]; cbn; [|done].
      destruct (mul_float v multiplier) as [scaled|]; cbn; [|done].
      rewrite (IH (acc ++ _)), (IH [_]).
      destruct (go [] rest) as [rs|]; cbn; [|done]. by rewrite <-app_assoc.
Qed.

Lemma go_app (front back acc : list record) :
  go acc (front ++ back) = rs ← go acc front; go rs back.
Proof.
  revert acc. induction front as [|item rest IH]; intros acc; [done|].
  rewrite <-app_comm_cons.
  destruct (go_cases item) as [Hnone|[[Hsome Hskip]|Hsel]].
  - by rewrite !go_no_status.
  - rewrite !go_skipped by done. apply IH.
  - rewrite !go_selected by done.
    destruct (subscript item "id") as [id|]; cbn; [|done].
    destruct (subscript item "name") as [name|]; cbn; [|done].
    destruct (subscript item "value") as [v|]; cbn; [|done].
    destruct (mul_float v multiplier) as [scaled|]; cbn; [|done].
    apply IH.
Qed.

Lemma select_and_scale_app (front back : list record) :
  select_and_scale status_lit multiplier (front ++ back) =
    rs1 ← select_and_scale status_lit multiplier front;
    rs2 ← select_and_scale status_lit multiplier back;
    Returns (rs1 ++ rs2).
Proof.
  unfold select_and_scale. rewrite go_app.
  destruct (go [] front) as [rs1|]; cbn; [|done]. apply go_shift.
Qed.

Lemma go_raises (data acc : list record) (bad : record) :
  bad ∈ data → bad !! "status" = None → ∃ e, go acc data = Raises e.
Proof.
  intros Hin Hbad. revert acc.
  induction data as [|item rest IH]; intros acc; [by apply elem_of_nil in Hin|].
  apply elem_of_cons in Hin as [<-|Hin].
  { rewrite go_no_status by done. by eexists. }
  destruct (go_cases item) as [Hnone|[[Hsome Hskip]|Hsel]].
  - rewrite go_no_status by done. by eexists.
  - rewrite go_skipped by done. by apply IH.
  - rewrite go_selected by done.
    destruct (subscript item "id") as [id|]; cbn; [|by eexists].
    destruct (subscript item "name") as [name|]; cbn; [|by eexists].
    destruct (subscript item "value") as [v|]; cbn; [|by eexists].
    destruct (mul_float v multiplier) as [scaled|]; cbn; [|by eexists].
    by apply IH.
Qed.

Lemma go_none_selected (data acc : list record) :
  Forall (λ it, is_Some (it !! "status") ∧ is_selected status_lit it = false) data →
  go acc data = Returns acc.
Proof.
  induction 1 as [|item rest [Hsome Hskip] _ IH]; [done|].
  by rewrite go_skipped.
Qed.

End common_shape.

Lemma scaled_copy_shape (multiplier : PrimFloat.float) (item r : record) :
  scaled_copy multiplier item r →
  dom r = {[ "id"; "name"; "value" ]} ∧ r !! "status" = None ∧
  ∃ f, r !! "value" = Some (VFloat f).
Proof.
  intros (id & name & v & scaled & _ & _ & _ & Hmul & ->).
  apply mul_float_returns_float in Hmul as [f ->].
  split; [|split].
  - cbn. rewrite !dom_insert_L, dom_empty_L. set_solver.
  - reflexivity.
  - by exists f.
Qed.

Lemma selections_disjoint (item : record) :
  is_selected "active" item = true → is_selected "pending" item = false.
Proof.
  unfold is_selected. destruct (item !! "status") as [[|b|n|f|s]|]; cbn; try done.
  intros ->%String.eqb_eq. reflexivity.
Qed.

Lemma filter_selections_length (data : list record) :
  (length (filter (λ it, is_selected "active" it) data)
   + length (filter (λ it, is_selected "pending" it) data) ≤ length data)%nat.
Proof.
  induction data as [|item rest IH]; [done|].
  rewrite !filter_cons.
  destruct (decide (is_selected "active" item)) as [Hactive|_];
    destruct (decide (is_selected "pending" item)) as [Hpending|_];
    cbn [length]; try lia.
  apply Is_true_true in Hactive.
  rewrite (selections_disjoint item Hactive) in Hpending. done.
Qed.

(** X8: when process_data returns, its result is, in order, one dictionary
    per input item whose status is 'active', holding that item's id and name
    and its value times 1.1; filter_data does the same for status 'pending'
    and the factor 1.2. *)
Theorem process_data_filter_data_map_selected (data rs : list record) :
  (process_data data = Returns rs →
     Forall2 (scaled_copy lit_1_1) (filter (λ it, is_selected "active" it) data) rs) ∧
  (filter_data data = Returns rs →
     Forall2 (scaled_copy lit_1_2) (filter (λ it, is_selected "pending" it) data) rs).
Proof.
  split.
  - rewrite process_data_unfold. by intros (new & -> & Hnew)%go_returns.
  - rewrite filter_data_unfold. by intros (new & -> & Hnew)%go_returns.
Qed.

(** X9: every dictionary that process_data or filter_data returns has exactly
    the keys 'id', 'name' and 'value'; the 'status' of the item it was built
    from is not carried over. *)
Theorem process_data_filter_data_output_shape (data rs : list record) :
  process_data data = Returns rs ∨ filter_data data = Returns rs →
  Forall (λ r, dom r = {[ "id"; "name"; "value" ]} ∧ r !! "status" = None) rs.
Proof.
  rewrite process_data_unfold, filter_data_unfold.
  intros [(new & -> & Hnew)%go_returns|(new & -> & Hnew)%go_returns];
    cbn; induction Hnew as [|item r ? ? Hcopy _ IH]; constructor; try done;
    by apply scaled_copy_shape in Hcopy as (? & ? & _).
Qed.

Lemma process_data_filter_data_output_shape_witness :
  Forall (λ r : record, dom r = {[ "id"; "name"; "value" ]} ∧ r !! "status" = None)
    [ {[ "id" := VInt 1; "name" := VStr "a"; "value" := VFloat 11%float ]} ].
Proof.
  apply (process_data_filter_data_output_shape
    [ {[ "status" := VStr "active"; "id" := VInt 1; "name" := VStr "a"; "value" := VInt 10 ]};
      {[ "status" := VStr "pending"; "id" := VInt 2; "name" := VStr "b"; "value" := VInt 10 ]} ]).
  left. vm_compute. reflexivity.
Defined.

(** X10: both functions distribute over concatenation: the result on
    front ++ back is the result on front followed by the result on back, and
    an exception raised on front, or else on back, is the exception raised on
    the whole. *)
Theorem process_data_filter_data_app (front back : list record) :
  process_data (front ++ back) =
    (rs1 ← process_data front; rs2 ← process_data back; Returns (rs1 ++ rs2)) ∧
  filter_data (front ++ back) =
    (rs1 ← filter_data front; rs2 ← filter_data back; Returns (rs1 ++ rs2)).
Proof.
  rewrite !process_data_unfold, !filter_data_unfold.
  split; apply select_and_scale_app.
Qed.

(** X11: no item is picked by both functions: when both return on the same
    input, their results together are no longer than the input. *)
Theorem process_data_filter_data_disjoint (data rs rs' : list record) :
  process_data data = Returns rs → filter_data data = Returns rs' →
  (length rs + length rs' ≤ length data)%nat.
Proof.
  rewrite process_data_unfold, filter_data_unfold.
  intros (new & -> & Hnew)%go_returns (new' & -> & Hnew')%go_returns.
  apply Forall2_length in Hnew, Hnew'. cbn. rewrite <-Hnew, <-Hnew'.
  apply filter_selections_length.
Qed.

Lemma process_data_filter_data_disjoint_witness :
  (length [ ({[ "id" := VInt 1; "name" := VStr "a"; "value" := VFloat 11%float ]} : record) ]
   + length [ ({[ "id" := VInt 2; "name" := VStr "b"; "value" := VFloat 12%float ]} : record) ]
   ≤ length
       [ ({[ "status" := VStr "active"; "id" := VInt 1; "name" := VStr "a"; "value" := VInt 10 ]} : record);
         {[ "status" := VStr "pending"; "id" := VInt 2; "name" := VStr "b"; "value" := VInt 10 ]} ])%nat.
Proof.
  apply process_data_filter_data_disjoint; vm_compute; reflexivity.
Defined.

(** X12: an item without a 'status' field makes both functions raise,
    wherever it stands; and items whose status is not the one looked for
    are skipped without their other fields being read, so that a list of
    such items gives the empty result. *)
Theorem process_data_filter_data_status_edges (data : list record) :
  (∀ bad, bad ∈ data → bad !! "status" = None →
     (∃ e, process_data data = Raises e) ∧ (∃ e, filter_data data = Raises e)) ∧
  (Forall (λ it, is_Some (it !! "status") ∧ is_selected "active" it = false) data →
     process_data data = Returns []) ∧
  (Forall (λ it, is_Some (it !! "status") ∧ is_selected "pending" it = false) data →
     filter_data data = Returns []).
Proof.
  rewrite process_data_unfold, filter_data_unfold. split_and!.
  - intros bad Hin Hbad. split; by eapply go_raises.
  - apply go_none_selected.
  - apply go_none_selected.
Qed.

(** X24: neither function can be run on its own output or on the other's:
    the dictionaries they return carry no 'status', so that on a non-empty
    result both raise KeyError('status'). *)
Theorem process_data_filter_data_not_reapplicable (data rs : list record) :
  process_data data = Returns rs ∨ filter_data data = Returns rs →
  rs ≠ [] →
  process_data rs = Raises (KeyError "status") ∧
  filter_data rs = Raises (KeyError "status").
Proof.
  rewrite process_data_unfold, filter_data_unfold. intros Hrs Hne.
  assert (∃ r rest, rs = r :: rest ∧ r !! "status" = None) as (r & rest & -> & Hr).
  { destruct Hrs as [(new & -> & Hnew)%go_returns|(new & -> & Hnew)%go_returns];
      cbn in *; destruct Hnew as [|item r ? rest Hcopy _]; try done;
      exists r, rest; split; try done;
      by apply scaled_copy_shape in Hcopy as (_ & ? & _). }
  rewrite process_data_unfold, filter_data_unfold.
  split; by apply go_no_status.
Qed.

Lemma process_data_filter_data_not_reapplicable_witness :
  process_data [ {[ "id" := VInt 1; "name" := VStr "a"; "value" := VFloat 11%float ]} ]
    = Raises (KeyError "status") ∧
  filter_data [ {[ "id" := VInt 1; "name" := VStr "a"; "value" := VFloat 11%float ]} ]
    = Raises (KeyError "status").
Proof.
  apply (process_data_filter_data_not_reapplicable
    [ {[ "status" := VStr "active"; "id" := VInt 1; "name" := VStr "a"; "value" := VInt 10 ]} ]).
  - left. vm_compute. reflexivity.
  - discriminate.
Defined.

End selection_facts.

(** ** More on [increment_counter] and [user_manager] *)

Section state_facts.
Import Py Fixture.

Lemma after_increment_int (globals : gmap string value) (c : Z) :
  globals !! "global_counter" = Some (VInt c) →
  after_increment globals = <["global_counter" := VInt (c + 1)]> globals.
Proof.
  intros Hc. unfold after_increment, increment_counter. by rewrite Hc.
Qed.

(** X13: starting from an integer counter c, after n calls in a row the
    counter is c + n, every other global name is as it was, and the next call
    returns c + n + 1. *)
Theorem increment_counter_counts_calls (globals : gmap string value) (c : Z) (n : nat) :
  globals !! "global_counter" = Some (VInt c) →
  Nat.iter n after_increment globals !! "global_counter" = Some (VInt (c + Z.of_nat n)) ∧
  (∀ name, name ≠ "global_counter" →
     Nat.iter n after_increment globals !! name = globals !! name) ∧
  (increment_counter (Nat.iter n after_increment globals)).1 = Returns (VInt (c + Z.of_nat n + 1)).
Proof.
  intros Hc.
  assert (Nat.iter n after_increment globals !! "global_counter" = Some (VInt (c + Z.of_nat n)) ∧
          ∀ name, name ≠ "global_counter" →
            Nat.iter n after_increment globals !! name = globals !! name) as [Hn Hframe].
  { induction n as [|n [IHc IHframe]].
    - change (Nat.iter 0 after_increment globals) with globals.
      split; [|done]. rewrite Hc. do 2 f_equal. lia.
    - rewrite Nat.iter_succ, (after_increment_int _ _ IHc). split.
      + rewrite lookup_insert_eq. do 2 f_equal. lia.
      + intros name Hname. rewrite lookup_insert_ne by done. by apply IHframe. }
  split_and!; [done..|].
  unfold increment_counter. by rewrite Hn.
Qed.

Lemma increment_counter_counts_calls_witness :
  Nat.iter 3 after_increment initial_globals !! "global_counter" = Some (VInt (0 + Z.of_nat 3)) ∧
  (∀ name, name ≠ "global_counter" →
     Nat.iter 3 after_increment initial_globals !! name = initial_globals !! name) ∧
  (increment_counter (Nat.iter 3 after_increment initial_globals)).1
    = Returns (VInt (0 + Z.of_nat 3 + 1)).
Proof.
  apply (increment_counter_counts_calls initial_globals 0 3). reflexivity.
Defined.

Lemma float_of_int_1 : float_of_int 1 = Returns 1%float.
Proof. vm_compute. reflexivity. Qed.

(** X14: increment_counter raises NameError when global_counter is unbound
    and TypeError when it is bound to None or to a string, and in both cases
    leaves the module namespace untouched; on a counter that is a bool, an
    int or a float it returns and rebinds the counter to what it returns. *)
Theorem increment_counter_failures (globals : gmap string value) :
  (globals !! "global_counter" = None →
     increment_counter globals = (Raises (NameError "global_counter"), globals)) ∧
  (globals !! "global_counter" = Some VNone ∨
   (∃ s, globals !! "global_counter" = Some (VStr s)) →
     increment_counter globals = (Raises TypeError, globals)) ∧
  ((∃ b, globals !! "global_counter" = Some (VBool b)) ∨
   (∃ n, globals !! "global_counter" = Some (VInt n)) ∨
   (∃ f, globals !! "global_counter" = Some (VFloat f)) →
     ∃ c', increment_counter globals
           = (Returns c', <["global_counter" := c']> globals)).
Proof.
  unfold increment_counter. split_and!.
  - by intros ->.
  - by intros [->|[s ->]].
  - intros [[b ->]|[[n ->]|[f ->]]].
    + by eexists.
    + by eexists.
    + cbn [py_add as_int]. rewrite float_of_int_1. by eexists.
Qed.

(** Looking a user up after one more has been appended: an earlier outcome
    stands, and only a miss goes on to the new user. *)
Lemma find_user_app (us : list record) (user : record) (id : value) :
  find_user (us ++ [user]) id =
  match find_user us id with
  | Returns None => find_user [user] id
  | outcome => outcome
  end.
Proof.
  induction us as [|u0 rest IH]; [done|]. cbn.
  destruct (subscript u0 "id") as [uid|]; cbn; [|done].
  destruct (py_eq uid id); [done|apply IH].
Qed.

(** X15: a user added when the id is not yet known is found afterwards:
    if get_user_by_id returns None for an id and a user whose 'id' equals it
    is added, the same call returns that user. *)
Theorem add_usr_then_get_user_by_id (self : user_manager) (user : record) (id : value) :
  get_user_by_id self id = Returns None →
  has_id user id →
  get_user_by_id (add_usr self user) id = Returns (Some user).
Proof.
  unfold get_user_by_id. cbn. intros Hmiss (uid & Huid & Heq).
  rewrite find_user_app, Hmiss. cbn. unfold subscript. rewrite Huid. cbn.
  by rewrite Heq.
Qed.

Lemma add_usr_then_get_user_by_id_witness :
  get_user_by_id (add_usr (add_usr init {[ "id" := VInt 1 ]}) {[ "id" := VInt 2 ]}) (VInt 2)
  = Returns (Some {[ "id" := VInt 2 ]}).
Proof.
  apply add_usr_then_get_user_by_id; [reflexivity|].
  exists (VInt 2). split; reflexivity.
Defined.

(** X16: adding a user never changes the outcome of a lookup that already
    found a user or already raised: the first stored match keeps shadowing
    later users with the same id, and a stored user without 'id' keeps
    failing the lookup. *)
Theorem add_usr_keeps_earlier_outcome (self : user_manager) (user : record) (id : value) :
  (∀ u, get_user_by_id self id = Returns (Some u) →
        get_user_by_id (add_usr self user) id = Returns (Some u)) ∧
  (∀ e, get_user_by_id self id = Raises e →
        get_user_by_id (add_usr self user) id = Raises e).
Proof.
  unfold get_user_by_id. cbn. split.
  - intros u Hfound. by rewrite find_user_app, Hfound.
  - intros e Hraised. by rewrite find_user_app, Hraised.
Qed.

Lemma find_user_raises (us : list record) (id : value) (e : exn) :
  find_user us id = Raises e →
  e = KeyError "id" ∧
  ∃ i u, us !! i = Some u ∧ u !! "id" = None ∧
         ∀ j w, (j < i)%nat → us !! j = Some w → ¬ has_id w id.
Proof.
  induction us as [|u0 rest IH]; cbn; [done|].
  unfold subscript. destruct (u0 !! "id") as [uid|] eqn:Hu0; cbn.
  - destruct (py_eq uid id) eqn:Heq; [done|].
    intros (-> & i & u & Hi & Hu & Hbefore)%IH. split; [done|].
    exists (S i), u. split_and!; [done..|].
    intros [|j] w Hj Hw; cbn in Hw.
    + injection Hw as <-. rewrite (has_id_lookup _ _ _ Hu0). congruence.
    + apply (Hbefore j); [lia|done].
  - intros [= <-]. split; [done|].
    exists 0%nat, u0. split_and!; [done..|]. intros j w Hj. lia.
Qed.

Lemma find_user_raises_when (us : list record) (id : value) (i : nat) (u : record) :
  us !! i = Some u → u !! "id" = None →
  (∀ j w, (j < i)%nat → us !! j = Some w → ¬ has_id w id) →
  find_user us id = Raises (KeyError "id").
Proof.
  revert i. induction us as [|u0 rest IH]; intros i Hi Hu Hbefore; [done|].
  cbn. unfold subscript. destruct (u0 !! "id") as [uid|] eqn:Hu0; cbn; [|done].
  destruct i as [|i]; cbn in Hi; [congruence|].
  destruct (py_eq uid id) eqn:Heq.
  - destruct (Hbefore 0%nat u0); [lia|done|]. by exists uid.
  - apply (IH i); [done..|].
    intros j w Hj Hw. apply (Hbefore (S j)); [lia|done].
Qed.

(** X17: get_user_by_id raises exactly when a user without an 'id' field is
    stored before any user with the requested id, and the exception is then
    KeyError('id'). *)
Theorem get_user_by_id_raises_iff (self : user_manager) (id : value) :
  ((∃ e, get_user_by_id self id = Raises e) ↔
     ∃ i u, users self !! i = Some u ∧ u !! "id" = None ∧
            ∀ j w, (j < i)%nat → users self !! j = Some w → ¬ has_id w id) ∧
  (∀ e, get_user_by_id self id = Raises e → e = KeyError "id").
Proof.
  unfold get_user_by_id. split; [split|].
  - intros [e He]. by apply find_user_raises in He as [_ Hex].
  - intros (i & u & Hi & Hu & Hbefore). exists (KeyError "id").
    by apply (find_user_raises_when _ _ i u).
  - intros e He. by apply find_user_raises in He as [-> _].
Qed.

End state_facts.

(** ** More on [risky_function] and [read_config_file] *)

Section more_files_facts.
Import Py Files.
Context {J : Type} (fs : filesystem J).

(** The outcome of [read_config_file] in each of the four situations the
    file system can present. *)
Lemma read_config_file_unopened (filename : string) (s : os_state) (err : exn) :
  fs_open fs filename = Some err →
  read_config_file fs filename s =
    (Raises match err with
            | FileNotFoundError _ =>
                FileNotFoundError ("Configuration file not found: " +:+ filename)
            | JSONDecodeError => TypeError
            | _ => err
            end, s).
Proof.
  intros Hopen. unfold read_config_file, try_except, with_open, py_open.
  rewrite Hopen. by destruct err.
Qed.

Lemma read_config_file_outcome (filename : string) (s : os_state) :
  fs_open fs filename = None →
  (read_config_file fs filename s).1 =
    match text ← fs_read fs Utf8 filename; json_loads fs text with
    | Returns doc => Returns doc
    | Raises (FileNotFoundError _) =>
        Raises (FileNotFoundError ("Configuration file not found: " +:+ filename))
    | Raises JSONDecodeError => Raises TypeError
    | Raises err => Raises err
    end.
Proof.
  intros Hopen.
  unfold read_config_file, try_except, with_open, py_open, json_load,
    file_read, file_close, lift, raise, mbind, io_bind, result_bind.
  rewrite Hopen. cbn -[filter].
  destruct (fs_read fs Utf8 filename) as [text|err].
  - destruct (json_loads fs text) as [doc|err]; [done|by destruct err].
  - by destruct err.
Qed.

(** X18: read_config_file never raises JSONDecodeError, although its
    docstring announces it: text that fails to decode with JSONDecodeError
    makes the call raise TypeError, because the except clause builds the new
    exception with one argument where the class takes three. *)
Theorem read_config_file_never_raises_JSONDecodeError (filename : string) (s : os_state) :
  (read_config_file fs filename s).1 ≠ Raises JSONDecodeError ∧
  (∀ text, fs_open fs filename = None →
           fs_read fs Utf8 filename = Returns text →
           json_loads fs text = Raises JSONDecodeError →
           (read_config_file fs filename s).1 = Raises TypeError).
Proof.
  split.
  - destruct (fs_open fs filename) as [err|] eqn:Hopen.
    + rewrite (read_config_file_unopened _ _ _ Hopen). by destruct err.
    + rewrite (read_config_file_outcome _ _ Hopen).
      destruct (fs_read fs Utf8 filename) as [text|err]; cbn.
      * destruct (json_loads fs text) as [doc|err]; [done|by destruct err].
      * by destruct err.
  - intros text Hopen Hread Hparse.
    rewrite (read_config_file_outcome _ _ Hopen), Hread. cbn. by rewrite Hparse.
Qed.

(** X19: when the path opens, the text reads and decodes, read_config_file
    returns the decoded document, having opened, read and closed one handle
    that is no longer open afterwards. *)
Theorem read_config_file_returns_document (filename text : string) (doc : J)
    (s : os_state) :
  fs_open fs filename = None →
  fs_read fs Utf8 filename = Returns text →
  json_loads fs text = Returns doc →
  let h := {| fd := next_fd s; path := filename; enc := Utf8 |} in
  ∃ s', read_config_file fs filename s = (Returns doc, s') ∧
        trace s' = trace s ++ [Opened h; ReadFrom h; Closed h] ∧
        h ∉ open_files s'.
Proof.
  intros Hopen Hread Hparse h.
  pose proof (read_config_file_outcome filename s Hopen) as Hout.
  rewrite Hread in Hout. cbn in Hout. rewrite Hparse in Hout.
  destruct (read_config_file_opened fs filename s Hopen) as (r & Hrun & _).
  rewrite Hrun in Hout. cbn in Hout. subst r.
  eexists. split_and!; [exact Hrun|done|].
  apply closed_not_open.
Qed.

(** X20: how read_config_file treats errors other than a decoding error: a
    FileNotFoundError from open is replaced by a fresh FileNotFoundError whose
    message is 'Configuration file not found: ' followed by the file name,
    with the state untouched; every exception other than FileNotFoundError
    and JSONDecodeError passes through unchanged, whether it comes from open,
    from reading or from decoding. *)
Theorem read_config_file_error_translation (filename : string) (s : os_state) :
  (∀ message, fs_open fs filename = Some (FileNotFoundError message) →
     read_config_file fs filename s =
       (Raises (FileNotFoundError ("Configuration file not found: " +:+ filename)), s)) ∧
  (∀ e, passes_through e →
     (fs_open fs filename = Some e → read_config_file fs filename s = (Raises e, s)) ∧
     (fs_open fs filename = None → fs_read fs Utf8 filename = Raises e →
        (read_config_file fs filename s).1 = Raises e) ∧
     (∀ text, fs_open fs filename = None → fs_read fs Utf8 filename = Returns text →
        json_loads fs text = Raises e →
        (read_config_file fs filename s).1 = Raises e)).
Proof.
  split.
  - intros message Hopen. by rewrite (read_config_file_unopened _ _ _ Hopen).
  - intros e He. split_and!.
    + intros Hopen. rewrite (read_config_file_unopened _ _ _ Hopen). by destruct e.
    + intros Hopen Hread. rewrite (read_config_file_outcome _ _ Hopen), Hread.
      by destruct e.
    + intros text Hopen Hread Hparse.
      rewrite (read_config_file_outcome _ _ Hopen), Hread. cbn. rewrite Hparse.
      by destruct e.
Qed.

(** X21: both functions keep the allocation invariant: if every open
    descriptor lies below the next free one before the call, the same holds
    after it, on every exit path. *)
Theorem file_functions_keep_well_formed (filename : string) (s : os_state) :
  well_formed s →
  well_formed (risky_function fs filename s).2 ∧
  well_formed (read_config_file fs filename s).2.
Proof.
  intros Hwf. split.
  - unfold risky_function, mbind, io_bind.
    pose proof (py_open_well_formed fs LocaleDefault filename s Hwf) as Hopened.
    destruct (py_open fs LocaleDefault filename s) as [[h|err] s1]; [|done].
    cbn in Hopened. unfold file_read.
    destruct (fs_read fs (enc h) (path h)) as [content|err]; [|done].
    apply (file_close_well_formed h (log (ReadFrom h) s1)), Hopened.
  - destruct (fs_open fs filename) as [err|] eqn:Hopen.
    + by rewrite (read_config_file_unopened _ _ _ Hopen).
    + destruct (read_config_file_opened fs filename s Hopen) as (r & -> & _).
      unfold well_formed. cbn -[filter].
      rewrite close_fresh_handle by done.
      eapply Forall_impl; [exact Hwf|]. cbn. lia.
Qed.

(** X22: the other two paths of risky_function: when the path cannot be
    opened it raises the error of open as it is and leaves the state
    untouched; when the path opens and the read returns, it returns the text
    read, having closed the handle, which is no longer open afterwards. *)
Theorem risky_function_other_paths (filename : string) (s : os_state) :
  (∀ e, fs_open fs filename = Some e →
        risky_function fs filename s = (Raises e, s)) ∧
  (∀ content, fs_open fs filename = None →
        fs_read fs LocaleDefault filename = Returns content →
        let h := {| fd := next_fd s; path := filename; enc := LocaleDefault |} in
        ∃ s', risky_function fs filename s = (Returns content, s') ∧
              trace s' = trace s ++ [Opened h; ReadFrom h; Closed h] ∧
              (h ∉ open_files s') ∧
              (well_formed s → open_files s' = open_files s)).
Proof.
  split.
  - intros e Hopen. unfold risky_function, py_open, mbind, io_bind. by rewrite Hopen.
  - intros content Hopen Hread h. eexists. split_and!.
    + unfold risky_function, py_open, file_read, file_close, mbind, io_bind.
      rewrite Hopen. cbn -[filter]. rewrite Hread. reflexivity.
    + cbn. by rewrite <-!app_assoc.
    + apply closed_not_open.
    + intros Hwf. by apply close_fresh_handle.
Qed.

End more_files_facts.

(** Runs of the statements above on the sample file systems. *)

Section more_files_witnesses.
Import Py Files.

Lemma read_config_file_returns_document_witness :
  let h := {| fd := 3; path := "config.json"; enc := Utf8 |} in
  ∃ s', read_config_file sample_tree "config.json" initial_state = (Returns 2%nat, s') ∧
        trace s' = trace initial_state ++ [Opened h; ReadFrom h; Closed h] ∧
        h ∉ open_files s'.
Proof.
  apply (read_config_file_returns_document sample_tree "config.json" "{}" 2%nat
           initial_state); reflexivity.
Defined.

Lemma read_config_file_error_translation_witness :
  read_config_file sample_tree "absent.json" initial_state =
    (Raises (FileNotFoundError "Configuration file not found: absent.json"),
     initial_state) ∧
  read_config_file sample_tree "secret.json" initial_state
    = (Raises OSError, initial_state) ∧
  (read_config_file sample_tree "broken.json" initial_state).1 = Raises UnicodeDecodeError.
Proof.
  split_and!.
  - apply (proj1 (read_config_file_error_translation sample_tree "absent.json"
                    initial_state) "absent.json").
    reflexivity.
  - apply (proj2 (read_config_file_error_translation sample_tree "secret.json"
                    initial_state) OSError I).
    reflexivity.
  - apply (proj2 (read_config_file_error_translation sample_tree "broken.json"
                    initial_state) UnicodeDecodeError I); reflexivity.
Defined.

Lemma file_functions_keep_well_formed_witness :
  well_formed (risky_function sample_tree "broken.json" initial_state).2 ∧
  well_formed (read_config_file sample_tree "broken.json" initial_state).2.
Proof.
  apply file_functions_keep_well_formed. constructor.
Defined.

Lemma risky_function_other_paths_witness :
  risky_function sample_tree "secret.json" initial_state = (Raises OSError, initial_state) ∧
  (let h := {| fd := 3; path := "config.json"; enc := LocaleDefault |} in
   ∃ s', risky_function sample_tree "config.json" initial_state = (Returns "{}", s') ∧
         trace s' = trace initial_state ++ [Opened h; ReadFrom h; Closed h] ∧
         (h ∉ open_files s') ∧
         (well_formed initial_state → open_files s' = open_files initial_state)).
Proof.
  split.
  - apply (proj1 (risky_function_other_paths sample_tree "secret.json" initial_state)).
    reflexivity.
  - apply (proj2 (risky_function_other_paths sample_tree "config.json" initial_state));
      reflexivity.
Defined.

End more_files_witnesses.
